(** * IArena replay engine of leaderboard_ui/js/leaderboard.js

    A shallow embedding of the timeline builder ([parseEvents]), of the
    suspicion heuristic applied by [updateReplayView], and of the playback
    controller ([renderIArena], [stepReplay], [toggleAutoPlay],
    [autoPlayLoop]), followed by the properties of the replay timeline.

    Modelling conventions.
    - A JavaScript string is a [string] of bytes (its UTF-8 encoding).  The
      scripts only search for ASCII needles and only change the case of
      whatever they are given; [toLowerCase] and [toUpperCase] act on the
      ASCII letters.  For the two substring tests of the heuristic this is
      exact: no character outside A-Z has a lower-case form made of the
      letters of the needles.
    - An optional field of a JSON object is an [option]; [None] is the
      JavaScript [undefined].
    - An object used as a dictionary is a [gmap] over its own string keys
      (keys inherited from Object.prototype are outside the model).
    - Numbers that the scripts only add and compare are in [Z]; the progress
      ratio is in [Q].
    - The DOM writes, the typing timer and the glitch timer carry no state of
      the engine and are left out. *)

From Stdlib Require Import ZArith QArith Ascii Lia.
From stdpp Require Import base option list strings pretty gmap relations.

Local Open Scope string_scope.
Local Open Scope list_scope.
Local Open Scope Z_scope.

(** ** JavaScript primitives used by the scripts *)

Module Js.

(** The outcome of a script: a value, or an uncaught TypeError. *)
Inductive result (A : Type) : Type :=
| Ok (a : A)
| TypeError.
Arguments Ok {A} a.
Arguments TypeError {A}.

Definition bind {A B} (r : result A) (k : A → result B) : result B :=
  match r with
  | Ok a => k a
  | TypeError => TypeError
  end.

(** [o.f] where [o] may be undefined: reading a property of undefined
    throws. *)
Definition deref {A} (o : option A) : result A :=
  match o with
  | Some a => Ok a
  | None => TypeError
  end.

(** Truthiness of an optional string: undefined and the empty string are
    falsy. *)
Definition truthy (o : option string) : bool :=
  match o with
  | Some (String _ _) => true
  | _ => false
  end.

(** [a || b] on optional strings with a string fallback. *)
Definition or_else (o : option string) (d : string) : string :=
  match o with
  | Some (String c s) => String c s
  | _ => d
  end.

(** Interpolation [${v}] inside a template literal. *)
Definition show (o : option string) : string :=
  match o with
  | Some s => s
  | None => "undefined"
  end.

Definition show_num (o : option Z) : string :=
  match o with
  | Some n => pretty n
  | None => "undefined"
  end.

Definition is_upper (c : ascii) : bool :=
  (65 <=? nat_of_ascii c)%nat && (nat_of_ascii c <=? 90)%nat.

Definition is_lower (c : ascii) : bool :=
  (97 <=? nat_of_ascii c)%nat && (nat_of_ascii c <=? 122)%nat.

Definition lower_char (c : ascii) : ascii :=
  if is_upper c then ascii_of_nat (nat_of_ascii c + 32) else c.

Definition upper_char (c : ascii) : ascii :=
  if is_lower c then ascii_of_nat (nat_of_ascii c - 32) else c.

Fixpoint map_chars (f : ascii → ascii) (s : string) : string :=
  match s with
  | EmptyString => EmptyString
  | String c s' => String (f c) (map_chars f s')
  end.

Definition toLowerCase (s : string) : string := map_chars lower_char s.
Definition toUpperCase (s : string) : string := map_chars upper_char s.

(** [v?.toUpperCase()]. *)
Definition opt_toUpperCase (o : option string) : option string :=
  toUpperCase <$> o.

Fixpoint startsWith (s pat : string) : bool :=
  match pat, s with
  | EmptyString, _ => true
  | String p pat', String c s' => bool_decide (p = c) && startsWith s' pat'
  | String _ _, EmptyString => false
  end.

(** [s.includes(pat)]. *)
Fixpoint includes (s pat : string) : bool :=
  startsWith s pat ||
  match s with
  | EmptyString => false
  | String _ s' => includes s' pat
  end.

End Js.

Import Js.

Global Instance result_ret : MRet result := @Ok.
Global Instance result_bind : MBind result := λ A B k r, Js.bind r k.

(** ** Data model *)

Inductive EventType := SYSTEM | SPEAK | ACTION | REVEAL.

Global Instance EventType_eq_dec : EqDecision EventType.
Proof. solve_decision. Defined.

(** Entries of [game.game_log] (the recorder's phase-level log). *)
Module GameLog.
Record entry := Entry {
  event : option string;
  roles : option (gmap string string);
  round : option Z;
  exiled : option string;
}.
End GameLog.

(** Entries of [game.action_log] (the recorder's per-turn log). *)
Module ActionLog.
Record entry := Entry {
  player : option string;
  action : option string;
  decision : option string;
  reasoning : option string;
  round : option Z;
  phase : option string;
}.
End ActionLog.

(** One element of [rawData.results]. *)
Record Game := {
  game_log : option (list GameLog.entry);
  action_log : option (list ActionLog.entry);
  winner : option string;
}.

(** The objects pushed on the timeline.  A property that an object literal
    does not set is undefined ([None]); [isElimination] is only ever read as
    a condition, so it is a [bool]. *)
Record Event := {
  type : EventType;
  actor : option string;
  text : string;
  meta : string;
  decision : option string;
  phase : option string;
  isElimination : bool;
  roles : option (gmap string string);
}.

(** ** Timeline builder: [parseEvents] *)

Definition is_event (name : string) (l : GameLog.entry) : bool :=
  bool_decide (GameLog.event l = Some name).

Definition intro_event : Event := {|
  type := SYSTEM;
  actor := None;
  text := "ARCHIVO RECUPERADO. PROTOCOLO DE VIGILANCIA ACTIVADO. IDENTIDADES ENCRIPTRADAS.";
  meta := "ESTADO: INICIAL";
  decision := None;
  phase := None;
  isElimination := false;
  roles := None;
|}.

Definition action_event (log : ActionLog.entry) : Event := {|
  type := if bool_decide (ActionLog.action log = Some "debate") then SPEAK else ACTION;
  actor := ActionLog.player log;
  text := or_else (ActionLog.reasoning log)
            ("REGISTRO: " +:+ show (ActionLog.player log) +:+ " ejecutó "
               +:+ show (ActionLog.action log) +:+ " sobre "
               +:+ or_else (ActionLog.decision log) "N/A" +:+ ".");
  meta := "TICK: R" +:+ show_num (ActionLog.round log) +:+ " - "
            +:+ show (opt_toUpperCase (ActionLog.phase log));
  decision := ActionLog.decision log;
  phase := ActionLog.phase log;
  isElimination := false;
  roles := None;
|}.

Definition night_event (log : GameLog.entry) : Event := {|
  type := SYSTEM;
  actor := None;
  text := "ACTIVIDAD DETECTADA EN SOMBRAS. ELIMINACIÓN EN PROGRESO.";
  meta := "TICK: R" +:+ show_num (GameLog.round log) +:+ " - NOCHE";
  decision := None;
  phase := None;
  isElimination := false;
  roles := None;
|}.

Definition exile_event (log : GameLog.entry) : Event := {|
  type := ACTION;
  actor := GameLog.exiled log;
  text := "VOTACIÓN FINALIZADA. SUJETO " +:+ show (GameLog.exiled log)
            +:+ " HA SIDO EXPULSADO DEL PERÍMETRO.";
  meta := "TICK: R" +:+ show_num (GameLog.round log) +:+ " - DÍA";
  decision := None;
  phase := None;
  isElimination := true;
  roles := None;
|}.

(** The body of the fallback loop for one entry of [game_log]. *)
Definition fallback_events (log : GameLog.entry) : list Event :=
  if is_event "night_phase" log then [night_event log]
  else if is_event "vote_exile" log then [exile_event log]
  else [].

Definition reveal_event (game : Game) (roles : option (gmap string string)) : Event := {|
  type := REVEAL;
  actor := None;
  text := "RECONSTRUCCIÓN FINALIZADA. FACCION VICTORIOSA: "
            +:+ show (opt_toUpperCase (winner game))
            +:+ ". CARGANDO IDENTIDADES REALES...";
  meta := "ESTADO: CIERRE";
  decision := None;
  phase := None;
  isElimination := false;
  roles := roles;
|}.

(** The timeline after step 1 and step 2, before the fallback test. *)
Definition primary_events (gl : list GameLog.entry) (game : Game) : list Event :=
  let events := [] in
  let events :=
    match find (is_event "role_assignment") gl with
    | Some _ => events ++ [intro_event]
    | None => events
    end in
  events ++ (action_event <$> default [] (action_log game)).

(** The guard of the fallback: [events.length <= 1 && game.game_log]. *)
Definition fallback_guard (events : list Event) (game : Game) : bool :=
  (Z.of_nat (length events) <=? 1) && bool_decide (is_Some (game_log game)).

(** The value of [roles] after step 1: the object literal it starts with,
    or [roleLog.roles]. *)
Definition captured_roles (gl : list GameLog.entry) : option (gmap string string) :=
  match find (is_event "role_assignment") gl with
  | Some l => GameLog.roles l
  | None => Some ∅
  end.

Definition parseEvents (game : Game) : result (list Event) :=
  (* game.game_log.find(...) *)
  gl ← deref (game_log game);
  let roles := captured_roles gl in
  let events := primary_events gl game in
  let events :=
    if fallback_guard events game
    then events ++ concat (fallback_events <$> default [] (game_log game))
    else events in
  Ok (events ++ [reveal_event game roles]).

(** The events that [parseEvents] has pushed when it reaches the reveal. *)
Definition body_events (gl : list GameLog.entry) (game : Game) : list Event :=
  if fallback_guard (primary_events gl game) game
  then primary_events gl game ++ concat (fallback_events <$> gl)
  else primary_events gl game.

(** ** Replay state *)

(** The global [replayState].  Its [typingInterval] handle only serves the
    typing effect of the dialog box and is not part of the model. *)
Record ReplayState := {
  events : list Event;
  currentIndex : Z;
  autoPlay : bool;
  suspicionScores : gmap string Z;
}.

Definition replayState0 : ReplayState := {|
  events := [];
  currentIndex := 0;
  autoPlay := false;
  suspicionScores := ∅;
|}.

Definition set_currentIndex (i : Z) (s : ReplayState) : ReplayState :=
  {| events := events s; currentIndex := i; autoPlay := autoPlay s;
     suspicionScores := suspicionScores s |}.

Definition set_autoPlay (b : bool) (s : ReplayState) : ReplayState :=
  {| events := events s; currentIndex := currentIndex s; autoPlay := b;
     suspicionScores := suspicionScores s |}.

Definition set_suspicionScores (m : gmap string Z) (s : ReplayState) : ReplayState :=
  {| events := events s; currentIndex := currentIndex s; autoPlay := autoPlay s;
     suspicionScores := m |}.

(** [events.length] and [events.length - 1]. *)
Definition len (s : ReplayState) : Z := Z.of_nat (length (events s)).
Definition lastIndex (s : ReplayState) : Z := len s - 1.

(** [events[i]]: undefined outside the array. *)
Definition event_at (evs : list Event) (i : Z) : option Event :=
  if i <? 0 then None else evs !! Z.to_nat i.

(** ** Suspicion heuristic (the body of [updateReplayView] guarded by
    [event.actor]) *)

(** [scores[a] || 0]. *)
Definition score_of (scores : gmap string Z) (a : string) : Z :=
  default 0 (scores !! a).

Definition suspicious (e : Event) : bool :=
  bool_decide (type e = ACTION)
  || includes (toLowerCase (text e)) "acus"
  || includes (toLowerCase (text e)) "sospech".

Definition suspicion_update (scores : gmap string Z) (e : Event) : gmap string Z :=
  match actor e with
  | Some a =>
      if truthy (actor e) then
        if suspicious e
        then <[a := Z.min 100 (score_of scores a + 15)]> scores
        else scores
      else scores
  | None => scores
  end.

(** ** Playback controller *)

(** The width, in percent, that a refresh writes to the progress bar:
    [(currentIndex / (events.length - 1)) * 100], or 100.  The two operands
    of the division are integers; its result and the product are rounded to
    a double, which [fl] stands for. *)
Section progress.

Variable fl : Q → Q.

Definition progress_at (n i : Z) : Q :=
  if 1 <? n then fl (fl (inject_Z i / inject_Z (n - 1)) * inject_Z 100)
  else inject_Z 100.

End progress.

(** What the statements use of rounding to the nearest double: it respects
    equality and order of the rationals, and 0, 1 and 100 are doubles. *)
Record rounding (fl : Q → Q) : Prop := {
  fl_proper : ∀ x y, (x == y)%Q → (fl x == fl y)%Q;
  fl_mono : ∀ x y, (x <= y)%Q → (fl x <= fl y)%Q;
  fl_0 : (fl 0 == 0)%Q;
  fl_1 : (fl 1 == 1)%Q;
  fl_100 : (fl (inject_Z 100) == inject_Z 100)%Q;
}.

Definition updateReplayView (s : ReplayState) : ReplayState :=
  match event_at (events s) (currentIndex s) with
  | None => s
  | Some event => set_suspicionScores (suspicion_update (suspicionScores s) event) s
  end.

Definition stepReplay (delta : Z) (s : ReplayState) : ReplayState :=
  if bool_decide (len s = 0) then s
  else updateReplayView
         (set_currentIndex
            (Z.max 0 (Z.min (len s - 1) (currentIndex s + delta))) s).

(** The document fetched for a run: [results] and the own keys of
    [participants], in enumeration order. *)
Record RawData := {
  results : option (list Game);
  participants : option (list string);
}.

(** [Object.keys(participants).forEach(p => scores[p] = 0)] on a fresh
    object. *)
Definition seed_scores (keys : list string) : gmap string Z :=
  foldl (λ m p, <[p := 0]> m) ∅ keys.

(** [renderIArena] from the point where the document has been fetched.
    [rawData.results[0]] of an empty array is undefined and [parseEvents]
    then throws on its first property read. *)
Definition renderIArena (rawData : RawData) : result ReplayState :=
  rs ← deref (results rawData);
  game ← deref (head rs);
  events ← parseEvents game;
  keys ← deref (participants rawData);
  Ok (updateReplayView
        {| events := events;
           currentIndex := 0;
           autoPlay := autoPlay replayState0;
           suspicionScores := seed_scores keys |}).

Definition progress (fl : Q → Q) (s : ReplayState) : Q :=
  progress_at fl (len s) (currentIndex s).

(** *** Navigation by the two buttons *)

Definition navigate (deltas : list Z) (s : ReplayState) : ReplayState :=
  foldl (λ s d, stepReplay d s) s deltas.

(** The indices shown by [navigate], in call order. *)
Fixpoint visited (n i : Z) (deltas : list Z) : list Z :=
  match deltas with
  | [] => []
  | d :: ds =>
      let i' := Z.max 0 (Z.min (n - 1) (i + d)) in
      i' :: visited n i' ds
  end.

(** Replaying the heuristic over a list of events, oldest first. *)
Definition replay_scores (scores : gmap string Z) (evs : list Event) : gmap string Z :=
  foldl suspicion_update scores evs.

(** *** Auto-advance

    [autoPlayLoop] is an async function: it runs up to its [await], and is
    resumed by the 3000 ms timer.  [timers] counts the activations of the
    loop that are suspended on their timer. *)
Record Machine := {
  state : ReplayState;
  timers : nat;
}.

Definition boot (s : ReplayState) : Machine := {| state := s; timers := 0 |}.

(** The loop test. *)
Definition loop_cond (s : ReplayState) : bool :=
  autoPlay s && (currentIndex s <? len s - 1).

(** One activation of [autoPlayLoop] up to its next suspension: either one
    [stepReplay(1)] and a new timer, or the end of the loop. *)
Definition autoPlayLoop (m : Machine) : Machine :=
  if loop_cond (state m)
  then {| state := stepReplay 1 (state m); timers := S (timers m) |}
  else m.

Definition toggleAutoPlay (m : Machine) : Machine :=
  let s := set_autoPlay (negb (autoPlay (state m))) (state m) in
  let m' := {| state := s; timers := timers m |} in
  if autoPlay s then autoPlayLoop m' else m'.

(** The stimuli of the page. *)
Inductive Stimulus :=
| ClickNext
| ClickPrev
| ClickAuto
| TimerFires.

(** A timer can only fire if an activation is waiting for it. *)
Definition react (st : Stimulus) (m : Machine) : option Machine :=
  match st with
  | ClickNext => Some {| state := stepReplay 1 (state m); timers := timers m |}
  | ClickPrev => Some {| state := stepReplay (-1) (state m); timers := timers m |}
  | ClickAuto => Some (toggleAutoPlay m)
  | TimerFires =>
      match timers m with
      | O => None
      | S n => Some (autoPlayLoop {| state := state m; timers := n |})
      end
  end.

Fixpoint run (sts : list Stimulus) (m : Machine) : option Machine :=
  match sts with
  | [] => Some m
  | st :: sts' =>
      match react st m with
      | Some m' => run sts' m'
      | None => None
      end
  end.

(** ** Links between the games table and the replay

    [renderGames] links each game to [?run=] followed by its file name
    without the first occurrence of [.json]; [renderIArena] fetches
    [results/], the run and [.json] below [CONFIG.REPO_BASE]. *)

Fixpoint str_drop (n : nat) (s : string) : string :=
  match n, s with
  | O, _ => s
  | S n', String _ s' => str_drop n' s'
  | S _, EmptyString => EmptyString
  end.

(** [s.replace(pat, rep)] for a string pattern: the first occurrence of
    [pat] is replaced.  [rep] is taken literally, which is what JavaScript
    does for a replacement without a dollar sign. *)
Fixpoint replace (s pat rep : string) : string :=
  if startsWith s pat then rep +:+ str_drop (String.length pat) s
  else match s with
       | EmptyString => EmptyString
       | String c s' => String c (replace s' pat rep)
       end.

Definition REPO_BASE : string :=
  "https://raw.githubusercontent.com/hisandan/agentbeats-werewolves-leaderboard/main/".

(** [game.filename.replace(".json", "")] *)
Definition run_of_filename (filename : string) : string :=
  replace filename ".json" "".

Definition replay_href (filename : string) : string :=
  "?run=" +:+ run_of_filename filename.

(** The argument of [fetchData] in [renderIArena], and the address that
    [fetchData] requests. *)
Definition results_endpoint (runId : string) : string :=
  "results/" +:+ runId +:+ ".json".

Definition fetch_url (endpoint : string) : string := REPO_BASE +:+ endpoint.

(** ** Agent detail: the choice of the ranking

    [renderAgentDetail] awaits the leaderboard index and reads
    [lbData.rankings] without a test: a failed fetch ([null]) throws.  The
    page then shows either the not-found message or the figures of the
    ranking found; the formatting of the figures is not part of the
    model. *)





(** ** The page of the replay

    What [initIarenaUI] creates and [updateReplayView] writes, for the
    elements that depend on the participants: one node and one suspicion bar
    per participant, found again through their ids [node-] and [susp-bar-]
    followed by the name.  The maps below are keyed by the name; no other
    element of the document is taken to have such an id.  The progress bar
    is [progress]; the dialog text, typed by a timer, and the classes of the
    container are not represented. *)

Record Node := {
  active : bool;
  glitch : bool;
  eliminated : bool;
  (* the role written over the name at the reveal, in upper case, and
     whether the node is given the colour of the werewolves *)
  revealed : option (string * bool);
}.

Record Bar := {
  width : option Z;
  medium : bool;
  high : bool;
}.

Record Page := {
  meta_text : string;
  actor_name : string;
  nodes : gmap string Node;
  bars : gmap string Bar;
}.

Definition new_node : Node :=
  {| active := false; glitch := false; eliminated := false; revealed := None |}.

Definition new_bar : Bar := {| width := None; medium := false; high := false |}.

(** [initIarenaUI]: the stage and the list are emptied, then filled with a
    node and a bar per key; [participants ? Object.keys(participants) : []]. *)
Definition initIarenaUI (participants : option (list string)) (pg : Page) : Page :=
  let pKeys := default [] participants in
  {| meta_text := meta_text pg;
     actor_name := actor_name pg;
     nodes := foldl (λ m pName, <[pName := new_node]> m) ∅ pKeys;
     bars := foldl (λ m pName, <[pName := new_bar]> m) ∅ pKeys |}.

(** [n.classList.remove("active", "glitch")] *)
Definition node_rest (n : Node) : Node :=
  {| active := false; glitch := false; eliminated := eliminated n;
     revealed := revealed n |}.

(** [node.classList.add("active")], and [add("eliminated", "glitch")] for
    an elimination. *)
Definition node_act (elimination : bool) (n : Node) : Node :=
  {| active := true;
     glitch := glitch n || elimination;
     eliminated := eliminated n || elimination;
     revealed := revealed n |}.

(** The colours and the label written at the reveal. *)
Definition node_reveal (role : string) (n : Node) : Node :=
  {| active := active n; glitch := glitch n; eliminated := eliminated n;
     revealed := Some (toUpperCase role, bool_decide (role = "werewolf")) |}.

(** [bar.style.width], and the classes toggled on [score > 40] and
    [score > 75]. *)
Definition show_bar (score : Z) : Bar :=
  {| width := Some score; medium := 40 <? score; high := 75 <? score |}.

(** The writes of one call of [updateReplayView] in state [s], the scores
    shown being those after the update of that call. *)
Definition refresh_page (s : ReplayState) (pg : Page) : Page :=
  match event_at (events s) (currentIndex s) with
  | None => pg
  | Some event =>
      let nodes1 := node_rest <$> nodes pg in
      let nodes2 :=
        match actor event with
        | Some a =>
            if truthy (actor event)
            then alter (node_act (isElimination event)) a nodes1
            else nodes1
        | None => nodes1
        end in
      let scores := suspicion_update (suspicionScores s) event in
      let bars' :=
        map_fold (λ p score bs,
                    match bs !! p with
                    | Some _ => <[p := show_bar score]> bs
                    | None => bs
                    end) (bars pg) scores in
      let nodes3 :=
        if bool_decide (type event = REVEAL) then
          match roles event with
          | Some rs =>
              map_fold (λ pName role ns, alter (node_reveal role) pName ns)
                nodes2 rs
          | None => nodes2
          end
        else nodes2 in
      {| meta_text := meta event;
         actor_name := or_else (actor event) "SYSTEM";
         nodes := nodes3;
         bars := bars' |}
  end.

(** The state and the page together. *)
Definition updateReplayView_page (v : ReplayState * Page) : ReplayState * Page :=
  (updateReplayView v.1, refresh_page v.1 v.2).

Definition stepReplay_page (delta : Z) (v : ReplayState * Page)
  : ReplayState * Page :=
  if bool_decide (len v.1 = 0) then v
  else updateReplayView_page
         (set_currentIndex
            (Z.max 0 (Z.min (len v.1 - 1) (currentIndex v.1 + delta))) v.1,
          v.2).

(** [renderIArena] with the page, [pg] being the page once the template has
    been cloned. *)
Definition renderIArena_page (rawData : RawData) (pg : Page)
  : result (ReplayState * Page) :=
  rs ← deref (results rawData);
  game ← deref (head rs);
  events ← parseEvents game;
  keys ← deref (participants rawData);
  Ok (updateReplayView_page
        ({| events := events;
            currentIndex := 0;
            autoPlay := autoPlay replayState0;
            suspicionScores := seed_scores keys |},
         initIarenaUI (participants rawData) pg)).

Definition navigate_page (deltas : list Z) (v : ReplayState * Page)
  : ReplayState * Page :=
  foldl (λ v d, stepReplay_page d v) v deltas.

(** ** Vocabulary of the statements *)




(** The entries of [game_log] that the fallback turns into an event. *)
Definition is_marker (l : GameLog.entry) : bool :=
  is_event "night_phase" l || is_event "vote_exile" l.

(** The number of events pushed before the fallback test. *)
Definition primary_count (gl : list GameLog.entry) (game : Game) : nat :=
  (match find (is_event "role_assignment") gl with Some _ => 1 | None => 0 end
   + length (default [] (action_log game)))%nat.


(** The node of [p] after the first two writes of a refresh on event [e],
    and after its last one. *)
Definition acted (e : Event) (p : string) (n : Node) : Node :=
  if bool_decide (actor e = Some p) && truthy (actor e)
  then node_act (isElimination e) (node_rest n)
  else node_rest n.

Definition reveal_of (e : Event) (p : string) (n : Node) : Node :=
  if bool_decide (type e = REVEAL) then
    match roles e with
    | Some rs =>
        match rs !! p with
        | Some role => node_reveal role n
        | None => n
        end
    | None => n
    end
  else n.

(** The cursor is on an event, every participant has a score, and the nodes
    and the bars are those of the participants. *)
Definition page_ok (keys : list string) (v : ReplayState * Page) : Prop :=
  len v.1 ≠ 0 ∧ 0 ≤ currentIndex v.1 ≤ lastIndex v.1 ∧
  (∀ p, p ∈ keys → is_Some (suspicionScores v.1 !! p)) ∧
  (∀ p, is_Some (nodes v.2 !! p) ↔ p ∈ keys) ∧
  (∀ p, is_Some (bars v.2 !! p) ↔ p ∈ keys).

(** The page shows the event under the cursor and the scores of the
    state. *)
Definition page_fresh (v : ReplayState * Page) : Prop :=
  ∃ e, event_at (events v.1) (currentIndex v.1) = Some e ∧
    meta_text v.2 = meta e ∧ actor_name v.2 = or_else (actor e) "SYSTEM" ∧
    (∀ p n, nodes v.2 !! p = Some n →
       (active n = true ↔ actor e = Some p ∧ p ≠ "") ∧
       (glitch n = true ↔ actor e = Some p ∧ p ≠ "" ∧ isElimination e = true)) ∧
    (∀ p b val, bars v.2 !! p = Some b → suspicionScores v.1 !! p = Some val →
       b = show_bar val) ∧
    (∀ p n, nodes v.2 !! p = Some n → actor e = Some p → p ≠ "" →
       isElimination e = true → eliminated n = true) ∧
    (∀ p n rs role, nodes v.2 !! p = Some n → type e = REVEAL →
       roles e = Some rs → rs !! p = Some role →
       revealed n = Some (toUpperCase role, bool_decide (role = "werewolf"))).

(** ** Sample records *)

Module Sample.

(** [{player:"P1", action:"vote", decision:"P2", round:1, phase:"day"}] *)
Definition vote_P1 : ActionLog.entry :=
  ActionLog.Entry (Some "P1") (Some "vote") (Some "P2") None (Some 1) (Some "day").

(** [{event:"night_phase", round:1}] *)
Definition night_1 : GameLog.entry :=
  GameLog.Entry (Some "night_phase") None (Some 1) None.

(** [{event:"vote_exile", round:1, exiled:"Ghost"}] *)
Definition exile_Ghost : GameLog.entry :=
  GameLog.Entry (Some "vote_exile") None (Some 1) (Some "Ghost").


(** Two votes of the same player, nothing else. *)
Definition two_votes : Game := {|
  game_log := Some [];
  action_log := Some [vote_P1; vote_P1];
  winner := Some "villagers";
|}.

(** A record of the older recorder: no action log, one exile of a subject
    that is not among the participants. *)
Definition old_archive : Game := {|
  game_log := Some [night_1; exile_Ghost];
  action_log := None;
  winner := Some "werewolves";
|}.

(** A record with a role assignment and two votes. *)
Definition cast : gmap string string :=
  <["P1" := "werewolf"]> {["P2" := "villager"]}.

Definition with_roles : Game := {|
  game_log := Some [GameLog.Entry (Some "role_assignment") (Some cast) None None];
  action_log := Some [vote_P1; vote_P1];
  winner := Some "werewolves";
|}.

(** The page before [initIarenaUI]. *)
Definition blank : Page :=
  {| meta_text := ""; actor_name := ""; nodes := ∅; bars := ∅ |}.

(** A record without [game_log]. *)
Definition no_game_log : Game := {|
  game_log := None;
  action_log := Some [];
  winner := Some "villagers";
|}.

Definition raw (game : Game) : RawData := {|
  results := Some [game];
  participants := Some ["P1"; "P2"];
|}.

(** The state in which [renderIArena] leaves the page for a record. *)
Definition start (game : Game) : ReplayState :=
  match renderIArena (raw game) with
  | Ok s => s
  | TypeError => replayState0
  end.

End Sample.

(** * Properties *)

(** ** Substring search and case folding *)

Section strings.

Lemma app_cons_str (c : ascii) (s t : string) :
  String c s +:+ t = String c (s +:+ t).
Proof. reflexivity. Qed.

Lemma startsWith_nil (s : string) : startsWith s "" = true.
Proof. by destruct s. Qed.


Lemma includes_nil (pat : string) : includes "" pat = startsWith "" pat.
Proof. by destruct pat. Qed.

Lemma includes_cons (c : ascii) (s pat : string) :
  includes (String c s) pat = startsWith (String c s) pat || includes s pat.
Proof. reflexivity. Qed.





End strings.


(** ** The timeline builder *)

Section builder.

Lemma parseEvents_unfold (game : Game) (gl : list GameLog.entry) :
  game_log game = Some gl →
  parseEvents game
  = Ok (body_events gl game ++ [reveal_event game (captured_roles gl)]).
Proof.
  intros Hgl. unfold parseEvents, body_events, captured_roles.
  rewrite Hgl. simpl. by destruct (fallback_guard _ _).
Qed.

Lemma action_event_not_reveal (log : ActionLog.entry) :
  type (action_event log) ≠ REVEAL.
Proof. simpl. by case_bool_decide. Qed.

Lemma fallback_events_not_reveal (log : GameLog.entry) :
  Forall (λ e, type e ≠ REVEAL) (fallback_events log).
Proof.
  unfold fallback_events.
  repeat case_match; repeat constructor; done.
Qed.

Lemma primary_events_not_reveal (gl : list GameLog.entry) (game : Game) :
  Forall (λ e, type e ≠ REVEAL) (primary_events gl game).
Proof.
  unfold primary_events. apply Forall_app. split.
  - case_match; simpl; repeat constructor; done.
  - apply Forall_fmap, Forall_forall. intros log _. apply action_event_not_reveal.
Qed.

Lemma body_events_not_reveal (gl : list GameLog.entry) (game : Game) :
  Forall (λ e, type e ≠ REVEAL) (body_events gl game).
Proof.
  unfold body_events. case_match; [|apply primary_events_not_reveal].
  apply Forall_app. split; [apply primary_events_not_reveal|].
  apply Forall_concat, Forall_fmap, Forall_forall.
  intros log _. apply fallback_events_not_reveal.
Qed.

Lemma primary_events_length (gl : list GameLog.entry) (game : Game) :
  length (primary_events gl game)
  = ((match find (is_event "role_assignment") gl with Some _ => 1 | None => 0 end)
     + length (default [] (action_log game)))%nat.
Proof.
  unfold primary_events. rewrite length_app, length_fmap.
  by destruct (find _ gl).
Qed.

End builder.

Section builder_claims.

(** For a record that has its [game_log], the timeline is not empty and
    ends with the only REVEAL event, which carries the captured roles and
    names the winner. *)
Lemma parseEvents_reveal_last (game : Game) (gl : list GameLog.entry) :
  game_log game = Some gl →
  ∃ evs pre r,
    parseEvents game = Ok evs ∧ evs ≠ [] ∧ evs = pre ++ [r] ∧ last evs = Some r ∧
    type r = REVEAL ∧ Forall (λ e, type e ≠ REVEAL) pre ∧
    roles r = match find (is_event "role_assignment") gl with
              | Some l => GameLog.roles l
              | None => Some ∅
              end ∧
    text r = "RECONSTRUCCIÓN FINALIZADA. FACCION VICTORIOSA: "
               +:+ match winner game with
                   | Some w => toUpperCase w
                   | None => "undefined"
                   end
               +:+ ". CARGANDO IDENTIDADES REALES...".
Proof.
  intros Hgl.
  exists (body_events gl game ++ [reveal_event game (captured_roles gl)]),
    (body_events gl game), (reveal_event game (captured_roles gl)).
  split; [by apply parseEvents_unfold|].
  split; [by destruct (body_events gl game)|].
  split; [done|].
  split; [apply last_snoc|].
  split; [done|].
  split; [apply body_events_not_reveal|].
  split; [done|].
  simpl. by destruct (winner game).
Qed.

(** C3.  [parseEvents] returns a non-empty timeline whose last element is
    the only REVEAL event, carrying the roles of the role-assignment entry
    (the empty mapping when there is none) and a narration that names the
    winning faction in upper case, for every record that has a [game_log];
    for a record without [game_log] it returns nothing and throws. *)
Theorem parseEvents_reveal_or_throw (game : Game) :
  match game_log game with
  | Some gl =>
      ∃ evs pre r,
        parseEvents game = Ok evs ∧ evs ≠ [] ∧ evs = pre ++ [r] ∧
        last evs = Some r ∧
        type r = REVEAL ∧ Forall (λ e, type e ≠ REVEAL) pre ∧
        roles r = match find (is_event "role_assignment") gl with
                  | Some l => GameLog.roles l
                  | None => Some ∅
                  end ∧
        text r = "RECONSTRUCCIÓN FINALIZADA. FACCION VICTORIOSA: "
                   +:+ match winner game with
                       | Some w => toUpperCase w
                       | None => "undefined"
                       end
                   +:+ ". CARGANDO IDENTIDADES REALES..."
  | None => parseEvents game = TypeError
  end.
Proof.
  destruct (game_log game) as [gl|] eqn:Hgl.
  - by apply parseEvents_reveal_last.
  - unfold parseEvents. by rewrite Hgl.
Qed.






(** C7.  A record without [game_log] makes [parseEvents] throw on its first
    statement, whatever its other fields. *)
Theorem parseEvents_throws_without_game_log
    (al : option (list ActionLog.entry)) (w : option string) :
  parseEvents {| game_log := None; action_log := al; winner := w |} = TypeError.
Proof. reflexivity. Qed.

Example parseEvents_no_game_log : parseEvents Sample.no_game_log = TypeError.
Proof. reflexivity. Qed.

Lemma parseEvents_throws_iff (game : Game) :
  parseEvents game = TypeError ↔ game_log game = None.
Proof.
  destruct (game_log game) as [gl|] eqn:Hgl.
  - rewrite (parseEvents_unfold _ _ Hgl). split; discriminate.
  - unfold parseEvents. by rewrite Hgl.
Qed.

(** With [game_log] present the other gaps are absorbed. *)
Lemma parseEvents_total_with_game_log (game : Game) (gl : list GameLog.entry) :
  game_log game = Some gl → ∃ evs, parseEvents game = Ok evs.
Proof. intros Hgl. rewrite (parseEvents_unfold _ _ Hgl). eauto. Qed.

Lemma reveal_without_role_assignment (gl : list GameLog.entry) :
  find (is_event "role_assignment") gl = None → captured_roles gl = Some ∅.
Proof. unfold captured_roles. by intros ->. Qed.

Lemma reveal_without_winner (game : Game) (r : option (gmap string string)) :
  winner game = None →
  text (reveal_event game r)
  = "RECONSTRUCCIÓN FINALIZADA. FACCION VICTORIOSA: undefined. CARGANDO IDENTIDADES REALES...".
Proof. simpl. by intros ->. Qed.

Lemma action_event_text_nonempty (log : ActionLog.entry) :
  text (action_event log) ≠ "".
Proof.
  simpl. unfold or_else at 1.
  destruct (ActionLog.reasoning log) as [[|c r]|]; done.
Qed.

End builder_claims.

(** ** The suspicion heuristic *)

Section heuristic.

Implicit Types (scores : gmap string Z) (e : Event) (a p : string).

Lemma truthy_Some a : truthy (Some a) = true ↔ a ≠ "".
Proof. destruct a; simpl; split; done. Qed.



Lemma suspicion_update_other scores e p :
  actor e ≠ Some p → suspicion_update scores e !! p = scores !! p.
Proof.
  intros Hp. unfold suspicion_update.
  destruct (actor e) as [a|]; [|done].
  destruct (truthy _), (suspicious e); try done.
  apply lookup_insert_ne. congruence.
Qed.





Lemma seed_scores_snoc (keys : list string) p :
  seed_scores (keys ++ [p]) = <[p := 0]> (seed_scores keys).
Proof. unfold seed_scores. by rewrite foldl_snoc. Qed.

Lemma seed_scores_lookup (keys : list string) p :
  seed_scores keys !! p = if decide (p ∈ keys) then Some 0 else None.
Proof.
  induction keys as [|k keys IH] using rev_ind.
  - change (seed_scores []) with (∅ : gmap string Z). rewrite lookup_empty.
    destruct (decide (p ∈ [])) as [Hin|]; [|done]. by apply elem_of_nil in Hin.
  - rewrite seed_scores_snoc, lookup_insert, IH.
    destruct (decide (k = p)) as [->|Hk].
    + rewrite decide_True; [done|].
      apply elem_of_app. right. by apply list_elem_of_singleton.
    + destruct (decide (p ∈ keys)) as [Hin|Hnin].
      * rewrite decide_True; [done|]. apply elem_of_app. by left.
      * rewrite decide_False; [done|]. rewrite elem_of_app, list_elem_of_singleton.
        intros [?|?]; [done | by subst].
Qed.






(** An archive of the older recorder: the exiled subject is not among the
    participants, and gets an entry when the cursor reaches the exile. *)
Example exiled_outsider_gets_entry :
  seed_scores ["P1"; "P2"] !! "Ghost" = None ∧
  event_at (events (Sample.start Sample.old_archive)) 1
  = Some (exile_event Sample.exile_Ghost) ∧
  suspicionScores (Sample.start Sample.old_archive) !! "Ghost" = None ∧
  map_to_list (suspicionScores (stepReplay 1 (Sample.start Sample.old_archive)))
  ≡ₚ [("Ghost", 15); ("P1", 0); ("P2", 0)].
Proof. repeat split; vm_compute; reflexivity. Qed.

End heuristic.

(** ** The playback controller *)

Section controller.

Implicit Types (s : ReplayState) (m : Machine) (delta : Z) (p : string).

Lemma updateReplayView_events s : events (updateReplayView s) = events s.
Proof. unfold updateReplayView. by destruct (event_at _ _). Qed.

Lemma updateReplayView_currentIndex s :
  currentIndex (updateReplayView s) = currentIndex s.
Proof. unfold updateReplayView. by destruct (event_at _ _). Qed.

Lemma updateReplayView_autoPlay s : autoPlay (updateReplayView s) = autoPlay s.
Proof. unfold updateReplayView. by destruct (event_at _ _). Qed.

Lemma updateReplayView_scores s :
  suspicionScores (updateReplayView s)
  = match event_at (events s) (currentIndex s) with
    | Some e => suspicion_update (suspicionScores s) e
    | None => suspicionScores s
    end.
Proof. unfold updateReplayView. by destruct (event_at _ _). Qed.

Lemma stepReplay_events delta s : events (stepReplay delta s) = events s.
Proof.
  unfold stepReplay. case_bool_decide; [done|].
  by rewrite updateReplayView_events.
Qed.

Lemma stepReplay_len delta s : len (stepReplay delta s) = len s.
Proof. unfold len. by rewrite stepReplay_events. Qed.

Lemma stepReplay_autoPlay delta s : autoPlay (stepReplay delta s) = autoPlay s.
Proof.
  unfold stepReplay. case_bool_decide; [done|].
  by rewrite updateReplayView_autoPlay.
Qed.

Lemma stepReplay_currentIndex delta s :
  len s ≠ 0 →
  currentIndex (stepReplay delta s)
  = Z.max 0 (Z.min (len s - 1) (currentIndex s + delta)).
Proof.
  intros Hlen. unfold stepReplay. rewrite bool_decide_eq_false_2 by done.
  by rewrite updateReplayView_currentIndex.
Qed.

Lemma stepReplay_scores delta s :
  len s ≠ 0 →
  suspicionScores (stepReplay delta s)
  = match event_at (events s)
            (Z.max 0 (Z.min (len s - 1) (currentIndex s + delta))) with
    | Some e => suspicion_update (suspicionScores s) e
    | None => suspicionScores s
    end.
Proof.
  intros Hlen. unfold stepReplay. rewrite bool_decide_eq_false_2 by done.
  by rewrite updateReplayView_scores.
Qed.

Lemma stepReplay_empty delta s : len s = 0 → stepReplay delta s = s.
Proof. intros Hlen. unfold stepReplay. by rewrite bool_decide_eq_true_2. Qed.

(** C9.  A call of [stepReplay] leaves the entry of every participant other
    than the actor of the event it arrives at as it was. *)
Theorem stepReplay_frame delta s p :
  (∀ e, event_at (events (stepReplay delta s))
                 (currentIndex (stepReplay delta s)) = Some e →
        actor e ≠ Some p) →
  suspicionScores (stepReplay delta s) !! p = suspicionScores s !! p.
Proof.
  intros Hother. destruct (decide (len s = 0)) as [Hlen|Hlen].
  - by rewrite stepReplay_empty.
  - rewrite stepReplay_events, stepReplay_currentIndex in Hother by done.
    rewrite stepReplay_scores by done.
    destruct (event_at _ _) as [e|]; [|done].
    apply suspicion_update_other. by apply Hother.
Qed.

Lemma stepReplay_frame_witness :
  suspicionScores (stepReplay 1 (Sample.start Sample.two_votes)) !! "P2"
  = suspicionScores (Sample.start Sample.two_votes) !! "P2".
Proof.
  apply (stepReplay_frame 1 (Sample.start Sample.two_votes) "P2").
  intros e He. vm_compute in He. injection He as <-. discriminate.
Defined.

(** *** Scores stay within bounds and never go down *)











Lemma renderIArena_inv (rawData : RawData) s0 :
  renderIArena rawData = Ok s0 →
  ∃ game keys evs,
    results rawData ≫= head = Some game ∧ participants rawData = Some keys ∧
    parseEvents game = Ok evs ∧
    s0 = updateReplayView
           {| events := evs; currentIndex := 0; autoPlay := false;
              suspicionScores := seed_scores keys |}.
Proof.
  unfold renderIArena. intros Hr.
  destruct (results rawData) as [rs|]; [|done]. simpl in Hr.
  destruct (head rs) as [game|] eqn:Hhead; [|done]. simpl in Hr.
  destruct (parseEvents game) as [evs|] eqn:Hpe; [|done]. simpl in Hr.
  destruct (participants rawData) as [keys|]; [|done]. simpl in Hr.
  injection Hr as <-. by exists game, keys, evs.
Qed.

Lemma navigate_cons delta (deltas : list Z) s :
  navigate (delta :: deltas) s = navigate deltas (stepReplay delta s).
Proof. reflexivity. Qed.







(** *** What the scores are after a sequence of moves *)

Lemma navigate_scores (deltas : list Z) s :
  len s ≠ 0 →
  suspicionScores (navigate deltas s)
  = replay_scores (suspicionScores s)
      (omap (event_at (events s)) (visited (len s) (currentIndex s) deltas)).
Proof.
  revert s. induction deltas as [|d ds IH]; intros s Hlen; [done|].
  rewrite navigate_cons, IH by (by rewrite stepReplay_len).
  rewrite stepReplay_len, stepReplay_events, stepReplay_currentIndex,
    stepReplay_scores by done.
  simpl. by destruct (event_at _ _).
Qed.

Lemma visited_forward (evs : list Event) (k i : nat) :
  (i + k < length evs)%nat →
  omap (event_at evs)
    (visited (Z.of_nat (length evs)) (Z.of_nat i) (replicate k 1))
  = take k (drop (S i) evs).
Proof.
  revert i. induction k as [|k IH]; intros i Hik; [done|].
  simpl replicate. simpl visited.
  replace (Z.max 0 (Z.min (Z.of_nat (length evs) - 1) (Z.of_nat i + 1)))
    with (Z.of_nat (S i)) by lia.
  destruct (lookup_lt_is_Some_2 evs (S i)) as [e He]; [lia|].
  rewrite (drop_S _ _ _ He). simpl.
  unfold event_at at 1.
  replace (Z.of_nat (S i) <? 0) with false by (symmetry; apply Z.ltb_ge; lia).
  rewrite Nat2Z.id, He. f_equal. apply IH. lia.
Qed.

Lemma parseEvents_nonempty (game : Game) (evs : list Event) :
  parseEvents game = Ok evs → evs ≠ [].
Proof.
  destruct (game_log game) as [gl|] eqn:Hgl.
  - rewrite (parseEvents_unfold _ _ Hgl). intros [= <-].
    by destruct (body_events gl game).
  - unfold parseEvents. by rewrite Hgl.
Qed.

Lemma navigate_forward_index (k : nat) s :
  0 ≤ currentIndex s → currentIndex s + Z.of_nat k ≤ lastIndex s →
  currentIndex (navigate (replicate k 1) s) = currentIndex s + Z.of_nat k.
Proof.
  unfold lastIndex. revert s. induction k as [|k IH]; intros s Hlo Hhi.
  - simpl. lia.
  - simpl replicate. rewrite navigate_cons.
    assert (currentIndex (stepReplay 1 s) = currentIndex s + 1) as Hidx.
    { rewrite stepReplay_currentIndex by lia. lia. }
    rewrite IH; rewrite ?stepReplay_len, ?Hidx; lia.
Qed.

(** C1 (as amended).  After [renderIArena] and any sequence of moves the
    scores are the replay of the heuristic, from the seeded map, over the
    events that were shown, in the order in which they were shown: event 0,
    then the event reached by each move.  Each move thus applies the
    heuristic once, to the event it arrives at, on top of the scores it
    finds.  Along a traversal by forward moves alone to index k this is the
    replay over events 0 to k inclusive. *)
Theorem navigate_accumulates (rawData : RawData) (s0 : ReplayState) :
  renderIArena rawData = Ok s0 →
  ∃ keys, participants rawData = Some keys ∧
    (∀ deltas,
       suspicionScores (navigate deltas s0)
       = replay_scores (seed_scores keys)
           (omap (event_at (events s0)) (0 :: visited (len s0) 0 deltas))) ∧
    (∀ delta s,
       len s ≠ 0 →
       suspicionScores (stepReplay delta s)
       = replay_scores (suspicionScores s)
           (omap (event_at (events s)) [currentIndex (stepReplay delta s)])) ∧
    (∀ k : nat, (k < length (events s0))%nat →
       currentIndex (navigate (replicate k 1) s0) = Z.of_nat k ∧
       suspicionScores (navigate (replicate k 1) s0)
       = replay_scores (seed_scores keys) (take (S k) (events s0))).
Proof.
  intros (game & keys & evs & _ & Hkeys & Hpe & ->)%renderIArena_inv.
  apply parseEvents_nonempty in Hpe.
  destruct evs as [|e0 evs]; [done|]. clear Hpe.
  set (s1 := updateReplayView _).
  assert (events s1 = e0 :: evs) as Hevs by apply updateReplayView_events.
  assert (currentIndex s1 = 0) as Hidx by apply updateReplayView_currentIndex.
  assert (suspicionScores s1 = suspicion_update (seed_scores keys) e0) as Hsc
    by apply updateReplayView_scores.
  assert (len s1 = Z.of_nat (length (e0 :: evs))) as Hlen
    by (unfold len; by rewrite Hevs).
  assert (len s1 ≠ 0) as Hne by (rewrite Hlen; simpl; lia).
  exists keys. split; [done|]. split; [|split].
  - intros deltas. rewrite navigate_scores, Hidx, Hsc, Hevs by done.
    reflexivity.
  - intros delta s Hs. rewrite stepReplay_scores, stepReplay_currentIndex by done.
    simpl. by destruct (event_at _ _).
  - intros k Hk. rewrite Hevs in Hk. split.
    + rewrite navigate_forward_index; rewrite ?Hidx; unfold lastIndex;
        rewrite ?Hlen; simpl in *; lia.
    + rewrite navigate_scores, Hidx, Hsc, Hevs, Hlen by done.
      pose proof (visited_forward (e0 :: evs) k 0) as Hfw.
      change (Z.of_nat 0) with 0 in Hfw.
      rewrite Hfw by (simpl in *; lia). reflexivity.
Qed.

Lemma navigate_accumulates_witness :
  ∃ keys, participants (Sample.raw Sample.two_votes) = Some keys ∧
    (∀ deltas,
       suspicionScores (navigate deltas (Sample.start Sample.two_votes))
       = replay_scores (seed_scores keys)
           (omap (event_at (events (Sample.start Sample.two_votes)))
              (0 :: visited (len (Sample.start Sample.two_votes)) 0 deltas))) ∧
    (∀ delta s,
       len s ≠ 0 →
       suspicionScores (stepReplay delta s)
       = replay_scores (suspicionScores s)
           (omap (event_at (events s)) [currentIndex (stepReplay delta s)])) ∧
    (∀ k : nat, (k < length (events (Sample.start Sample.two_votes)))%nat →
       currentIndex (navigate (replicate k 1) (Sample.start Sample.two_votes))
       = Z.of_nat k ∧
       suspicionScores (navigate (replicate k 1) (Sample.start Sample.two_votes))
       = replay_scores (seed_scores keys)
           (take (S k) (events (Sample.start Sample.two_votes)))).
Proof.
  exact (navigate_accumulates (Sample.raw Sample.two_votes)
           (Sample.start Sample.two_votes) eq_refl).
Defined.

(** C1 (as stated) fails: with two votes of P1 at indices 0 and 1, going to
    index 1, back to index 0 and forward to index 1 again leaves P1 at 60,
    whereas going straight to index 1, like the replay of events 0 to 1 from
    the seeded map, gives 30. *)
Lemma backward_then_forward_differs :
  renderIArena (Sample.raw Sample.two_votes) = Ok (Sample.start Sample.two_votes) ∧
  currentIndex (navigate [1] (Sample.start Sample.two_votes)) = 1 ∧
  currentIndex (navigate [1; -1] (Sample.start Sample.two_votes)) = 0 ∧
  currentIndex (navigate [1; -1; 1] (Sample.start Sample.two_votes)) = 1 ∧
  suspicionScores (navigate [1] (Sample.start Sample.two_votes)) !! "P1" = Some 30 ∧
  replay_scores (seed_scores ["P1"; "P2"])
    (take 2 (events (Sample.start Sample.two_votes))) !! "P1" = Some 30 ∧
  suspicionScores (navigate [1; -1; 1] (Sample.start Sample.two_votes)) !! "P1"
  = Some 60 ∧
  suspicionScores (navigate [1; -1; 1] (Sample.start Sample.two_votes))
  ≠ suspicionScores (navigate [1] (Sample.start Sample.two_votes)).
Proof.
  repeat split; try reflexivity.
  intros Heq. apply (f_equal (λ m : gmap string Z, m !! "P1")) in Heq.
  vm_compute in Heq. discriminate.
Qed.

(** *** Progress *)

Lemma rounding_exact : rounding (λ x, x).
Proof. split; intros; done. Qed.

Lemma ratio_frac (i d : Z) :
  0 < d → (inject_Z i / inject_Z d == i # Z.to_pos d)%Q.
Proof.
  intros Hd. destruct d as [|d|d]; try lia. by rewrite <- Qmake_Qdiv.
Qed.

Lemma progress_at_single fl (n i : Z) : n ≤ 1 → progress_at fl n i = inject_Z 100.
Proof.
  intros Hn. unfold progress_at. by rewrite (proj2 (Z.ltb_ge 1 n) Hn).
Qed.

Lemma progress_at_mono fl (n i j : Z) :
  rounding fl → i ≤ j → (progress_at fl n i <= progress_at fl n j)%Q.
Proof.
  intros Hfl Hij. unfold progress_at. destruct (1 <? n) eqn:Hn; [|apply Qle_refl].
  apply Z.ltb_lt in Hn.
  apply (fl_mono _ Hfl), Qmult_le_compat_r; [|done].
  apply (fl_mono _ Hfl). rewrite !ratio_frac by lia.
  unfold Qle. simpl. nia.
Qed.

Lemma progress_at_first fl (n : Z) :
  rounding fl → 1 < n → (progress_at fl n 0 == 0)%Q.
Proof.
  intros Hfl Hn. unfold progress_at. rewrite (proj2 (Z.ltb_lt 1 n) Hn).
  assert (fl (inject_Z 0 / inject_Z (n - 1)) == 0)%Q as H0.
  { apply Qeq_trans with (fl 0%Q); [|apply (fl_0 _ Hfl)].
    apply (fl_proper _ Hfl). rewrite ratio_frac by lia. reflexivity. }
  apply Qeq_trans with (fl 0%Q); [|apply (fl_0 _ Hfl)].
  apply (fl_proper _ Hfl). rewrite H0. reflexivity.
Qed.

Lemma progress_at_last fl (n : Z) :
  rounding fl → 1 ≤ n → (progress_at fl n (n - 1) == inject_Z 100)%Q.
Proof.
  intros Hfl Hn. destruct (decide (1 < n)) as [Hn1|Hn1];
    [|by rewrite progress_at_single by lia].
  unfold progress_at. rewrite (proj2 (Z.ltb_lt 1 n) Hn1).
  assert (fl (inject_Z (n - 1) / inject_Z (n - 1)) == 1)%Q as H1.
  { apply Qeq_trans with (fl 1%Q); [|apply (fl_1 _ Hfl)].
    apply (fl_proper _ Hfl). rewrite ratio_frac by lia. unfold Qeq. simpl.
    rewrite Z2Pos.id by lia. lia. }
  apply Qeq_trans with (fl (inject_Z 100)); [|apply (fl_100 _ Hfl)].
  apply (fl_proper _ Hfl). rewrite H1. reflexivity.
Qed.

(** C6.  With the cursor within a non-empty timeline, the progress is the
    ratio of the index to the last index times 100, and 100 for a timeline
    of one event; it does not decrease when the index grows, is 0 at index 0
    of a timeline of two events or more, is 100 at the last index, and stays
    within 0..100. *)
Theorem progress_spec fl s :
  rounding fl →
  events s ≠ [] → 0 ≤ currentIndex s ≤ lastIndex s →
  (1 < len s →
     progress fl s
     = fl (fl (inject_Z (currentIndex s) / inject_Z (len s - 1)%Z)
           * inject_Z 100)%Q) ∧
  (len s = 1 → progress fl s = inject_Z 100) ∧
  (∀ s', events s' = events s → currentIndex s ≤ currentIndex s' →
         (progress fl s <= progress fl s')%Q) ∧
  (2 ≤ len s → currentIndex s = 0 → (progress fl s == 0)%Q) ∧
  (currentIndex s = lastIndex s → (progress fl s == inject_Z 100)%Q) ∧
  (0 <= progress fl s <= inject_Z 100)%Q.
Proof.
  intros Hfl Hne [Hlo Hhi]. unfold lastIndex in *. unfold progress.
  assert (1 ≤ len s) as Hlen.
  { unfold len. destruct (events s); [done | simpl; lia]. }
  split; [|split; [|split; [|split; [|split]]]].
  - intros Hn. unfold progress_at. by rewrite (proj2 (Z.ltb_lt 1 _) Hn).
  - intros H1. by rewrite progress_at_single by lia.
  - intros s' Hevs Hij. unfold len. rewrite Hevs. by apply progress_at_mono.
  - intros H2 ->. apply progress_at_first; [done | lia].
  - intros ->. by apply progress_at_last.
  - split.
    + destruct (decide (1 < len s)) as [Hn|Hn].
      * rewrite <- (progress_at_first fl (len s)) by done.
        by apply progress_at_mono.
      * rewrite progress_at_single by lia. done.
    + rewrite <- (progress_at_last fl (len s)) by done.
      by apply progress_at_mono.
Qed.

Lemma progress_spec_witness :
  (progress (λ x, x) (stepReplay 1 (Sample.start Sample.two_votes)) == inject_Z 50)%Q.
Proof.
  destruct (progress_spec (λ x, x) (stepReplay 1 (Sample.start Sample.two_votes)))
    as (Hratio & _);
    [apply rounding_exact | discriminate | vm_compute; split; discriminate |].
  rewrite Hratio by reflexivity. reflexivity.
Defined.

(** *** Auto-advance *)

Lemma loop_cond_spec s :
  loop_cond s = true ↔ autoPlay s = true ∧ currentIndex s < lastIndex s.
Proof.
  unfold loop_cond, lastIndex. by rewrite andb_true_iff, Z.ltb_lt.
Qed.

Lemma autoPlayLoop_done m :
  loop_cond (state m) = false → autoPlayLoop m = m.
Proof. intros Hc. unfold autoPlayLoop. by rewrite Hc. Qed.

Lemma autoPlayLoop_step m :
  loop_cond (state m) = true →
  autoPlayLoop m = {| state := stepReplay 1 (state m); timers := S (timers m) |}.
Proof. intros Hc. unfold autoPlayLoop. by rewrite Hc. Qed.

Lemma stepReplay_forward s :
  0 ≤ currentIndex s → currentIndex s < lastIndex s →
  currentIndex (stepReplay 1 s) = currentIndex s + 1.
Proof.
  unfold lastIndex. intros Hlo Hhi.
  rewrite stepReplay_currentIndex by lia. lia.
Qed.

(** An activation of the loop that is waiting for its timer, with autoPlay
    on and the cursor [d] events before the last one, ends at its resumption
    number [d + 1], on the last event. *)
Lemma timer_runs_to_the_end (d k : nat) m :
  autoPlay (state m) = true → timers m = S k →
  0 ≤ currentIndex (state m) →
  lastIndex (state m) - currentIndex (state m) = Z.of_nat d →
  ∃ m', run (replicate (S d) TimerFires) m = Some m' ∧
        timers m' = k ∧ autoPlay (state m') = true ∧
        events (state m') = events (state m) ∧
        currentIndex (state m') = lastIndex (state m).
Proof.
  revert m. induction d as [|d IH]; intros m Hauto Htimers Hlo Hdist.
  - exists {| state := state m; timers := k |}. simpl. rewrite Htimers.
    rewrite autoPlayLoop_done.
    + repeat split; simpl; [done | lia].
    + simpl. apply not_true_is_false. rewrite loop_cond_spec. lia.
  - assert (loop_cond (state m) = true) as Hc
      by (apply loop_cond_spec; split; [done | lia]).
    change (replicate (S (S d)) TimerFires)
      with (TimerFires :: replicate (S d) TimerFires).
    simpl run. rewrite Htimers. rewrite autoPlayLoop_step by done.
    simpl state. simpl timers.
    destruct (IH {| state := stepReplay 1 (state m); timers := S k |})
      as (m' & Hrun & Ht & Ha & He & Hi); simpl.
    + by rewrite stepReplay_autoPlay.
    + done.
    + rewrite stepReplay_forward; lia.
    + unfold lastIndex. rewrite stepReplay_len. fold (lastIndex (state m)).
      rewrite stepReplay_forward; lia.
    + exists m'. simpl in *. rewrite Hrun, Ht, Ha, He, Hi.
      rewrite stepReplay_events. unfold lastIndex. rewrite stepReplay_len.
      done.
Qed.

Lemma stepReplay_in_range delta s :
  0 ≤ currentIndex s ≤ lastIndex s →
  0 ≤ currentIndex (stepReplay delta s) ≤ lastIndex (stepReplay delta s).
Proof.
  unfold lastIndex. intros Hr. rewrite stepReplay_len.
  rewrite stepReplay_currentIndex; lia.
Qed.

Lemma react_in_range st m m' :
  react st m = Some m' →
  0 ≤ currentIndex (state m) ≤ lastIndex (state m) →
  0 ≤ currentIndex (state m') ≤ lastIndex (state m').
Proof.
  intros Hr Hin. destruct st; simpl in Hr.
  - injection Hr as <-. by apply stepReplay_in_range.
  - injection Hr as <-. by apply stepReplay_in_range.
  - injection Hr as <-. unfold toggleAutoPlay, autoPlayLoop.
    repeat case_match; simpl; try done. by apply stepReplay_in_range.
  - destruct (timers m); [done|]. injection Hr as <-. unfold autoPlayLoop.
    case_match; simpl; try done. by apply stepReplay_in_range.
Qed.

(** The cursor of every state that the page reaches is within the
    timeline. *)
Lemma run_in_range (rawData : RawData) s0 (sts : list Stimulus) m :
  renderIArena rawData = Ok s0 → run sts (boot s0) = Some m →
  0 ≤ currentIndex (state m) ≤ lastIndex (state m).
Proof.
  intros (game & keys & evs & _ & _ & Hpe & ->)%renderIArena_inv.
  apply parseEvents_nonempty in Hpe.
  assert (0 ≤ currentIndex (state (boot (updateReplayView
            {| events := evs; currentIndex := 0; autoPlay := false;
               suspicionScores := seed_scores keys |})))
          ≤ lastIndex (state (boot (updateReplayView
            {| events := evs; currentIndex := 0; autoPlay := false;
               suspicionScores := seed_scores keys |})))) as Hin.
  { simpl. unfold lastIndex, len.
    rewrite updateReplayView_currentIndex, updateReplayView_events. simpl.
    destruct evs; [done | simpl; lia]. }
  revert Hin. generalize (boot (updateReplayView
            {| events := evs; currentIndex := 0; autoPlay := false;
               suspicionScores := seed_scores keys |})).
  induction sts as [|st sts IH]; intros m0 Hin Hrun; simpl in Hrun.
  - by injection Hrun as <-.
  - destruct (react st m0) as [m1|] eqn:Hr; [|done].
    eapply IH; [|done]. by eapply react_in_range.
Qed.

(** C8.  Toggling once on the last event flips autoPlay and nothing else:
    the index stays and no activation of the loop is left waiting for a
    timer.  An activation of the loop advances exactly when autoPlay is on
    and the index is below the last one, and otherwise ends.  Started by a
    click with autoPlay off, and left alone, the loop is resumed as many
    times as there are events ahead and ends on the last event, autoPlay
    still on. *)
Theorem autoPlay_stops_at_last m :
  0 ≤ currentIndex (state m) ≤ lastIndex (state m) →
  (currentIndex (state m) = lastIndex (state m) →
     currentIndex (state (toggleAutoPlay m)) = currentIndex (state m) ∧
     timers (toggleAutoPlay m) = timers m ∧
     state (toggleAutoPlay m)
     = set_autoPlay (negb (autoPlay (state m))) (state m)) ∧
  (loop_cond (state m) = true ↔
     autoPlay (state m) = true ∧ currentIndex (state m) < lastIndex (state m)) ∧
  (loop_cond (state m) = true →
     autoPlayLoop m
     = {| state := stepReplay 1 (state m); timers := S (timers m) |}) ∧
  (loop_cond (state m) = false → autoPlayLoop m = m) ∧
  (autoPlay (state m) = false → timers m = O →
     ∃ m', run (ClickAuto ::
                replicate (Z.to_nat (lastIndex (state m) - currentIndex (state m)))
                  TimerFires) m = Some m' ∧
           timers m' = O ∧ autoPlay (state m') = true ∧
           currentIndex (state m') = lastIndex (state m) ∧
           react TimerFires m' = None).
Proof.
  intros [Hlo Hhi].
  split; [|split; [apply loop_cond_spec|split; [apply autoPlayLoop_step|
    split; [apply autoPlayLoop_done|]]]].
  - intros Hlast. unfold toggleAutoPlay.
    destruct (autoPlay (set_autoPlay _ _)); [|done].
    rewrite autoPlayLoop_done; [done|]. simpl.
    apply not_true_is_false. rewrite loop_cond_spec. simpl.
    unfold lastIndex, len in *. simpl. lia.
  - intros Hoff Htimers. simpl run. unfold toggleAutoPlay. rewrite Hoff. simpl.
    set (s1 := set_autoPlay true (state m)).
    destruct (decide (currentIndex (state m) = lastIndex (state m))) as [Heq|Hlt].
    + rewrite autoPlayLoop_done.
      * rewrite Heq, Z.sub_diag. simpl. rewrite Htimers.
        exists {| state := s1; timers := 0 |}. repeat split; simpl; done.
      * simpl. apply not_true_is_false. rewrite loop_cond_spec.
        subst s1. unfold lastIndex, len in *. simpl. lia.
    + assert (loop_cond s1 = true) as Hc.
      { apply loop_cond_spec. subst s1. unfold lastIndex, len in *. simpl. lia. }
      rewrite autoPlayLoop_step by done. simpl state. simpl timers.
      rewrite Htimers.
      destruct (timer_runs_to_the_end
                  (Z.to_nat (lastIndex (state m) - currentIndex (state m)) - 1) 0
                  {| state := stepReplay 1 s1; timers := 1 |})
        as (m' & Hrun & Ht & Ha & He & Hi); simpl.
      * by rewrite stepReplay_autoPlay.
      * done.
      * rewrite stepReplay_forward; subst s1; unfold lastIndex, len in *;
          simpl; lia.
      * unfold lastIndex. rewrite stepReplay_len. fold (lastIndex s1).
        rewrite stepReplay_forward; subst s1; unfold lastIndex, len in *;
          simpl; lia.
      * replace (S (Z.to_nat (lastIndex (state m) - currentIndex (state m)) - 1))
          with (Z.to_nat (lastIndex (state m) - currentIndex (state m)))
          in Hrun by lia.
        exists m'. rewrite Hrun. simpl in Hi.
        unfold lastIndex in Hi. rewrite stepReplay_len in Hi.
        repeat split; try done. by rewrite Ht.
Qed.

Lemma autoPlay_stops_at_last_witness :
  ∃ m', run [ClickAuto; TimerFires; TimerFires]
          (boot (Sample.start Sample.two_votes)) = Some m' ∧
        timers m' = O ∧ autoPlay (state m') = true ∧
        currentIndex (state m') = 2 ∧
        react TimerFires m' = None.
Proof.
  exact (proj2 (proj2 (proj2 (proj2
    (autoPlay_stops_at_last (boot (Sample.start Sample.two_votes))
       (conj (Z.le_refl 0) (Zle_bool_imp_le 0 2 eq_refl))))))
    eq_refl eq_refl).
Defined.

End controller.

(** * Further properties of the timeline builder *)

Section builder_more.

Implicit Types (game : Game) (gl : list GameLog.entry) (evs : list Event).

Lemma parseEvents_inv game gl evs :
  game_log game = Some gl → parseEvents game = Ok evs →
  evs = body_events gl game ++ [reveal_event game (captured_roles gl)].
Proof.
  intros Hgl. rewrite (parseEvents_unfold _ _ Hgl). by intros [= <-].
Qed.

Lemma fallback_guard_count game gl :
  game_log game = Some gl →
  fallback_guard (primary_events gl game) game = (primary_count gl game <=? 1)%nat.
Proof.
  intros Hgl. unfold fallback_guard, primary_count.
  rewrite primary_events_length, Hgl, bool_decide_eq_true_2, andb_true_r by eauto.
  destruct (_ + _)%nat as [|[|n]]; simpl; try done.
  apply Z.leb_gt. lia.
Qed.

Lemma fallback_events_cases (log : GameLog.entry) :
  (GameLog.event log = Some "night_phase" ∧ fallback_events log = [night_event log]) ∨
  (GameLog.event log = Some "vote_exile" ∧ fallback_events log = [exile_event log]) ∨
  (is_marker log = false ∧ fallback_events log = []).
Proof.
  unfold fallback_events, is_marker, is_event.
  repeat case_bool_decide; simpl; auto.
Qed.

Lemma fallback_events_count gl :
  length (concat (fallback_events <$> gl)) = length (List.filter is_marker gl).
Proof.
  induction gl as [|log gl IH]; [done|].
  rewrite fmap_cons. change (concat (?x :: ?l)) with (x ++ concat l).
  rewrite length_app, IH. simpl.
  destruct (fallback_events_cases log) as [[He ->] | [[He ->] | [Hm ->]]].
  - unfold is_marker, is_event. rewrite He. by rewrite bool_decide_eq_true_2.
  - unfold is_marker, is_event. rewrite He.
    rewrite (bool_decide_eq_true_2 (Some "vote_exile" = Some "vote_exile")) by done.
    by rewrite orb_true_r.
  - by rewrite Hm.
Qed.

(** X1.  The length of the timeline of a record that has its [game_log]:
    one introductory event if there is a role-assignment entry, one event per
    action entry, then, when these are at most one, one event per
    night-phase or vote-exile marker, and the reveal. *)
Theorem parseEvents_length game gl evs :
  game_log game = Some gl → parseEvents game = Ok evs →
  length evs
  = (primary_count gl game
     + (if (primary_count gl game <=? 1)%nat
        then length (List.filter is_marker gl) else 0)
     + 1)%nat.
Proof.
  intros Hgl Hpe. rewrite (parseEvents_inv _ _ _ Hgl Hpe).
  rewrite length_app. simpl. f_equal. unfold body_events.
  rewrite (fallback_guard_count _ _ Hgl).
  destruct (primary_count gl game <=? 1)%nat.
  - rewrite length_app, fallback_events_count, primary_events_length. done.
  - rewrite primary_events_length. unfold primary_count. lia.
Qed.

Lemma parseEvents_length_witness :
  ∃ evs, parseEvents Sample.old_archive = Ok evs ∧ length evs = 3%nat.
Proof.
  eexists. split; [reflexivity|].
  exact (parseEvents_length Sample.old_archive
           [Sample.night_1; Sample.exile_Ghost] _ eq_refl eq_refl).
Defined.

Lemma primary_events_prefix game gl evs :
  game_log game = Some gl → parseEvents game = Ok evs →
  ∃ rest, evs = primary_events gl game ++ rest.
Proof.
  intros Hgl Hpe. rewrite (parseEvents_inv _ _ _ Hgl Hpe). unfold body_events.
  destruct (fallback_guard _ _).
  - rewrite <- !app_assoc. eauto.
  - eauto.
Qed.

(** X2.  The action entries appear in the timeline in their order, after
    the introductory event if there is one: entry number i is the event at
    index i, or i + 1, built by [action_event], with the player as actor and
    of kind SPEAK exactly for a debate. *)
Theorem action_entries_in_order game gl evs (i : nat) (log : ActionLog.entry) :
  game_log game = Some gl → parseEvents game = Ok evs →
  default [] (action_log game) !! i = Some log →
  evs !! ((match find (is_event "role_assignment") gl with
           | Some _ => 1 | None => 0 end) + i)%nat
  = Some (action_event log) ∧
  actor (action_event log) = ActionLog.player log ∧
  (type (action_event log) = SPEAK ↔ ActionLog.action log = Some "debate") ∧
  (type (action_event log) = ACTION ↔ ActionLog.action log ≠ Some "debate").
Proof.
  intros Hgl Hpe Hi. split.
  - destruct (primary_events_prefix _ _ _ Hgl Hpe) as [rest ->].
    apply lookup_app_l_Some. unfold primary_events.
    destruct (find _ gl); simpl.
    + by rewrite list_lookup_fmap, Hi.
    + by rewrite list_lookup_fmap, Hi.
  - simpl. case_bool_decide; repeat split; try done; try congruence.
Qed.

Lemma action_entries_in_order_witness :
  ∃ evs, parseEvents Sample.two_votes = Ok evs ∧
         evs !! 1%nat = Some (action_event Sample.vote_P1).
Proof.
  eexists. split; [reflexivity|].
  exact (proj1 (action_entries_in_order Sample.two_votes [] _ 1 Sample.vote_P1
                  eq_refl eq_refl eq_refl)).
Defined.

Lemma primary_events_no_elimination game gl :
  Forall (λ e, isElimination e = false) (primary_events gl game).
Proof.
  unfold primary_events. apply Forall_app. split.
  - case_match; simpl; repeat constructor.
  - apply Forall_fmap, Forall_forall. by intros log _.
Qed.

Lemma filter_none {A} (f : A → bool) (l : list A) :
  Forall (λ x, f x = false) l → List.filter f l = [].
Proof.
  induction 1 as [|x l Hx _ IH]; [done|]. simpl. by rewrite Hx.
Qed.

Lemma fallback_eliminations gl :
  List.filter isElimination (concat (fallback_events <$> gl))
  = exile_event <$> List.filter (is_event "vote_exile") gl.
Proof.
  induction gl as [|log gl IH]; [done|].
  rewrite fmap_cons. change (concat (?x :: ?l)) with (x ++ concat l).
  rewrite List.filter_app, IH. simpl.
  destruct (fallback_events_cases log) as [[He ->] | [[He ->] | [Hm ->]]].
  - unfold is_event. rewrite He. by rewrite bool_decide_eq_false_2.
  - unfold is_event. rewrite He. by rewrite bool_decide_eq_true_2.
  - apply orb_false_elim in Hm as [_ ->]. done.
Qed.

(** X3.  The events flagged [isElimination] are exactly the events of the
    vote-exile markers, in their order, when the fallback runs, and there
    are none when it does not; each of them is of kind ACTION and has the
    exiled subject as actor. *)
Theorem eliminations_are_exiles game gl evs :
  game_log game = Some gl → parseEvents game = Ok evs →
  List.filter isElimination evs
  = (if (primary_count gl game <=? 1)%nat
     then exile_event <$> List.filter (is_event "vote_exile") gl
     else []) ∧
  (∀ e, e ∈ evs → isElimination e = true →
        type e = ACTION ∧
        ∃ log, log ∈ gl ∧ GameLog.event log = Some "vote_exile" ∧
               e = exile_event log ∧ actor e = GameLog.exiled log).
Proof.
  intros Hgl Hpe.
  assert (List.filter isElimination evs
          = if (primary_count gl game <=? 1)%nat
            then exile_event <$> List.filter (is_event "vote_exile") gl
            else []) as Hfilter.
  { rewrite (parseEvents_inv _ _ _ Hgl Hpe), List.filter_app. simpl.
    rewrite app_nil_r. unfold body_events.
    rewrite (fallback_guard_count _ _ Hgl).
    destruct (primary_count gl game <=? 1)%nat.
    - rewrite List.filter_app, fallback_eliminations.
      by rewrite (filter_none _ _ (primary_events_no_elimination game gl)).
    - apply filter_none, primary_events_no_elimination. }
  split; [done|]. intros e He Helim.
  assert (e ∈ List.filter isElimination evs) as Hin.
  { apply list_elem_of_In, List.filter_In. by rewrite <- list_elem_of_In. }
  rewrite Hfilter in Hin. destruct (primary_count gl game <=? 1)%nat.
  - apply list_elem_of_fmap in Hin as (log & -> & Hlog).
    apply list_elem_of_In, List.filter_In in Hlog as [Hlog Hev].
    split; [done|]. exists log. rewrite list_elem_of_In.
    unfold is_event in Hev. apply bool_decide_eq_true in Hev. done.
  - by apply elem_of_nil in Hin.
Qed.

Lemma eliminations_are_exiles_witness :
  ∃ evs, parseEvents Sample.old_archive = Ok evs ∧
         List.filter isElimination evs = [exile_event Sample.exile_Ghost].
Proof.
  eexists. split; [reflexivity|].
  exact (proj1 (eliminations_are_exiles Sample.old_archive
                  [Sample.night_1; Sample.exile_Ghost] _ eq_refl eq_refl)).
Defined.

Lemma app_nonempty_l (s t : string) : s ≠ "" → s +:+ t ≠ "".
Proof. destruct s; [done|]. intros _. by rewrite app_cons_str. Qed.

Lemma fallback_events_in gl e :
  e ∈ concat (fallback_events <$> gl) →
  ∃ log, log ∈ gl ∧ e ∈ fallback_events log.
Proof.
  induction gl as [|log gl IH]; [by intros ?%elem_of_nil|].
  rewrite fmap_cons. change (concat (?x :: ?l)) with (x ++ concat l).
  rewrite elem_of_app. intros [He | He].
  - exists log. split; [left | done].
  - destruct (IH He) as (log' & Hin & He'). exists log'. split; [by right | done].
Qed.

Lemma body_events_in game gl e :
  e ∈ body_events gl game →
  e = intro_event ∨
  (∃ log, log ∈ default [] (action_log game) ∧ e = action_event log) ∨
  (∃ log, log ∈ gl ∧ GameLog.event log = Some "night_phase" ∧ e = night_event log) ∨
  (∃ log, log ∈ gl ∧ GameLog.event log = Some "vote_exile" ∧ e = exile_event log).
Proof.
  assert (e ∈ primary_events gl game →
          e = intro_event ∨
          ∃ log, log ∈ default [] (action_log game) ∧ e = action_event log) as Hprim.
  { unfold primary_events. rewrite elem_of_app, list_elem_of_fmap.
    intros [Hin | (log & -> & Hlog)]; [|eauto].
    destruct (find _ gl); simpl in Hin.
    - apply list_elem_of_singleton in Hin. auto.
    - by apply elem_of_nil in Hin. }
  unfold body_events. destruct (fallback_guard _ _).
  - rewrite elem_of_app. intros [Hin | Hin].
    + destruct (Hprim Hin) as [?|?]; auto.
    + apply fallback_events_in in Hin as (log & Hlog & He).
      destruct (fallback_events_cases log) as [[Hev Hf] | [[Hev Hf] | [_ Hf]]];
        rewrite Hf in He.
      * apply list_elem_of_singleton in He. right. right. left. eauto.
      * apply list_elem_of_singleton in He. right. right. right. eauto.
      * by apply elem_of_nil in He.
  - intros Hin. destruct (Hprim Hin) as [?|?]; auto.
Qed.

(** X4.  No event of the timeline has an empty text. *)
Theorem timeline_texts_nonempty game gl evs :
  game_log game = Some gl → parseEvents game = Ok evs →
  Forall (λ e, text e ≠ "") evs.
Proof.
  intros Hgl Hpe. rewrite (parseEvents_inv _ _ _ Hgl Hpe).
  apply Forall_app. split.
  - apply Forall_forall. intros e He.
    apply body_events_in in He
      as [-> | [(log & _ & ->) | [(log & _ & _ & ->) | (log & _ & _ & ->)]]].
    + done.
    + apply action_event_text_nonempty.
    + done.
    + simpl. by apply app_nonempty_l.
  - constructor; [|constructor]. simpl. by apply app_nonempty_l.
Qed.

Lemma timeline_texts_nonempty_witness :
  ∃ evs, parseEvents Sample.old_archive = Ok evs ∧ Forall (λ e, text e ≠ "") evs.
Proof.
  eexists. split; [reflexivity|].
  exact (timeline_texts_nonempty Sample.old_archive
           [Sample.night_1; Sample.exile_Ghost] _ eq_refl eq_refl).
Defined.

Lemma intro_event_not_in_body game gl e :
  e ∈ (action_event <$> default [] (action_log game))
      ++ concat (fallback_events <$> gl) ++ [reveal_event game (captured_roles gl)] →
  e ≠ intro_event.
Proof.
  rewrite !elem_of_app, list_elem_of_fmap, list_elem_of_singleton.
  intros [(log & -> & _) | [He | ->]] Heq.
  - apply (f_equal type) in Heq. simpl in Heq. by case_bool_decide.
  - apply fallback_events_in in He as (log & _ & He).
    destruct (fallback_events_cases log) as [[_ Hf] | [[_ Hf] | [_ Hf]]];
      rewrite Hf in He.
    + apply list_elem_of_singleton in He as ->.
      apply (f_equal text) in Heq. simpl in Heq. discriminate.
    + apply list_elem_of_singleton in He as ->. discriminate.
    + by apply elem_of_nil in He.
  - discriminate.
Qed.

Lemma parseEvents_split game gl evs :
  game_log game = Some gl → parseEvents game = Ok evs →
  ∃ tail,
    evs = match find (is_event "role_assignment") gl with
          | Some _ => [intro_event]
          | None => []
          end ++ tail ∧
    Forall (λ e, e ≠ intro_event) tail.
Proof.
  intros Hgl Hpe. rewrite (parseEvents_inv _ _ _ Hgl Hpe).
  unfold body_events, primary_events.
  destruct (fallback_guard _ _).
  - exists ((action_event <$> default [] (action_log game))
            ++ concat (fallback_events <$> gl)
            ++ [reveal_event game (captured_roles gl)]).
    split; [destruct (find _ gl); simpl; by rewrite <- ?app_assoc|].
    apply Forall_forall. intros e. apply intro_event_not_in_body.
  - exists ((action_event <$> default [] (action_log game))
            ++ [reveal_event game (captured_roles gl)]).
    split; [destruct (find _ gl); simpl; by rewrite <- ?app_assoc|].
    apply Forall_forall. intros e He.
    apply (intro_event_not_in_body game gl).
    rewrite !elem_of_app in *. tauto.
Qed.

(** X5.  The introductory event is in the timeline exactly when [game_log]
    has a role-assignment entry, and then at index 0 and nowhere else. *)
Theorem intro_event_only_first game gl evs (i : nat) :
  game_log game = Some gl → parseEvents game = Ok evs →
  evs !! i = Some intro_event ↔
  i = 0%nat ∧ is_Some (find (is_event "role_assignment") gl).
Proof.
  intros Hgl Hpe.
  destruct (parseEvents_split _ _ _ Hgl Hpe) as (tail & -> & Htail).
  rewrite Forall_forall in Htail.
  destruct (find _ gl) as [l|]; simpl; split.
  - destruct i as [|i]; [eauto|]. simpl. intros Hi.
    apply list_elem_of_lookup_2 in Hi. by apply Htail in Hi.
  - by intros [-> _].
  - intros Hi. apply list_elem_of_lookup_2 in Hi. by apply Htail in Hi.
  - intros [_ [? ?]]. done.
Qed.

Lemma intro_event_only_first_witness :
  ∃ evs, parseEvents Sample.old_archive = Ok evs ∧
         (evs !! 0%nat = Some intro_event ↔
          0%nat = 0%nat ∧ is_Some (@None GameLog.entry)).
Proof.
  eexists. split; [reflexivity|].
  exact (intro_event_only_first Sample.old_archive
           [Sample.night_1; Sample.exile_Ghost] _ 0 eq_refl eq_refl).
Defined.

Lemma find_first {A} (f : A → bool) (pre post : list A) (x : A) :
  Forall (λ y, f y = false) pre → f x = true →
  find f (pre ++ x :: post) = Some x.
Proof.
  induction 1 as [|y pre Hy _ IH]; intros Hx; simpl.
  - by rewrite Hx.
  - rewrite Hy. by apply IH.
Qed.

(** X6.  When [game_log] has several role-assignment entries the first one
    counts: the timeline starts with the one introductory event and its last
    event carries the roles of that entry. *)
Theorem first_role_assignment_wins game (pre post : list GameLog.entry)
    (l : GameLog.entry) evs :
  game_log game = Some (pre ++ l :: post) →
  Forall (λ x, is_event "role_assignment" x = false) pre →
  is_event "role_assignment" l = true →
  parseEvents game = Ok evs →
  evs !! 0%nat = Some intro_event ∧
  last evs = Some (reveal_event game (GameLog.roles l)) ∧
  (∀ i, evs !! i = Some intro_event → i = 0%nat).
Proof.
  intros Hgl Hpre Hl Hpe.
  pose proof (find_first _ pre post l Hpre Hl) as Hfind.
  split; [|split].
  - destruct (parseEvents_split _ _ _ Hgl Hpe) as (tail & -> & _).
    by rewrite Hfind.
  - rewrite (parseEvents_inv _ _ _ Hgl Hpe), last_snoc.
    unfold captured_roles. by rewrite Hfind.
  - intros i Hi.
    destruct (parseEvents_split _ _ _ Hgl Hpe) as (tail & -> & Htail).
    rewrite Hfind in Hi. destruct i as [|i]; [done|]. simpl in Hi.
    rewrite Forall_forall in Htail.
    apply list_elem_of_lookup_2 in Hi. by apply Htail in Hi.
Qed.

Lemma first_role_assignment_wins_witness :
  ∃ evs,
    parseEvents {| game_log :=
                     Some [Sample.night_1;
                           GameLog.Entry (Some "role_assignment")
                             (Some {["P1" := "werewolf"]}) None None;
                           GameLog.Entry (Some "role_assignment")
                             (Some {["P1" := "villager"]}) None None];
                   action_log := None; winner := None |} = Ok evs ∧
    evs !! 0%nat = Some intro_event ∧
    roles <$> last evs = Some (Some {["P1" := "werewolf"]}).
Proof.
  eexists. split; [reflexivity|].
  edestruct (first_role_assignment_wins
              {| game_log :=
                   Some [Sample.night_1;
                         GameLog.Entry (Some "role_assignment")
                           (Some {["P1" := "werewolf"]}) None None;
                         GameLog.Entry (Some "role_assignment")
                           (Some {["P1" := "villager"]}) None None];
                 action_log := None; winner := None |}
              [Sample.night_1]
              [GameLog.Entry (Some "role_assignment")
                 (Some {["P1" := "villager"]}) None None]
              (GameLog.Entry (Some "role_assignment")
                 (Some {["P1" := "werewolf"]}) None None))
    as (H0 & Hlast & _);
    [reflexivity | repeat constructor | reflexivity | reflexivity |].
  split; [exact H0|]. by rewrite Hlast.
Defined.

(** X7.  The events of kind SYSTEM and REVEAL of a timeline have no actor,
    and showing one changes no score. *)
Theorem system_events_never_score game gl evs (e : Event) :
  game_log game = Some gl → parseEvents game = Ok evs →
  e ∈ evs → type e = SYSTEM ∨ type e = REVEAL →
  actor e = None ∧ ∀ scores, suspicion_update scores e = scores.
Proof.
  intros Hgl Hpe He Hkind.
  assert (actor e = None) as Hactor.
  { rewrite (parseEvents_inv _ _ _ Hgl Hpe), elem_of_app in He.
    destruct He as [He | He].
    - apply body_events_in in He
        as [-> | [(log & _ & ->) | [(log & _ & _ & ->) | (log & _ & _ & ->)]]].
      + done.
      + simpl in Hkind. case_bool_decide; destruct Hkind; done.
      + done.
      + destruct Hkind; done.
    - by apply list_elem_of_singleton in He as ->. }
  split; [done|]. intros scores. unfold suspicion_update. by rewrite Hactor.
Qed.

Lemma system_events_never_score_witness :
  actor (night_event Sample.night_1) = None ∧
  ∀ scores, suspicion_update scores (night_event Sample.night_1) = scores.
Proof.
  apply (system_events_never_score Sample.old_archive
           [Sample.night_1; Sample.exile_Ghost]
           [night_event Sample.night_1; exile_event Sample.exile_Ghost;
            reveal_event Sample.old_archive (Some ∅)]).
  - reflexivity.
  - reflexivity.
  - left.
  - left. reflexivity.
Defined.

End builder_more.

(** * Further properties of the suspicion heuristic *)

Section heuristic_more.

Implicit Types (scores : gmap string Z) (e : Event) (a : string)
  (evs : list Event).






Lemma suspicion_update_comm scores (e1 e2 : Event) :
  suspicion_update (suspicion_update scores e1) e2
  = suspicion_update (suspicion_update scores e2) e1.
Proof.
  unfold suspicion_update.
  destruct (actor e1) as [a|] eqn:Ha1, (actor e2) as [b|] eqn:Ha2; try done.
  destruct (truthy (Some a)), (truthy (Some b)), (suspicious e1), (suspicious e2);
    try done.
  unfold score_of. destruct (decide (a = b)) as [->|Hab].
  - by rewrite !lookup_insert_eq, !insert_insert_eq.
  - rewrite !lookup_insert_ne by done. by apply insert_insert_ne.
Qed.

(** X9.  The scores obtained by replaying a list of events do not depend on
    the order of the events. *)
Theorem replay_scores_permutation scores evs evs' :
  evs ≡ₚ evs' → replay_scores scores evs = replay_scores scores evs'.
Proof.
  unfold replay_scores. intros Hp. revert scores.
  induction Hp as [|e l l' _ IH|e1 e2 l|l1 l2 l3 _ IH1 _ IH2]; intros scores.
  - done.
  - simpl. apply IH.
  - simpl. by rewrite suspicion_update_comm.
  - by rewrite IH1.
Qed.

Lemma replay_scores_permutation_witness :
  replay_scores (seed_scores ["P1"; "P2"])
    [night_event Sample.night_1; action_event Sample.vote_P1]
  = replay_scores (seed_scores ["P1"; "P2"])
      [action_event Sample.vote_P1; night_event Sample.night_1].
Proof.
  apply (replay_scores_permutation (seed_scores ["P1"; "P2"])).
  apply perm_swap.
Defined.



End heuristic_more.

(** * Further properties of the playback controller *)

Section controller_more.

Implicit Types (s : ReplayState) (m : Machine) (delta : Z).

(** X10.  Within a non-empty timeline a move past either end stops at that
    end, and a move that stays within the timeline followed by the opposite
    move brings the cursor back to where it was. *)
Theorem stepReplay_clamps_and_returns delta s :
  len s ≠ 0 → 0 ≤ currentIndex s ≤ lastIndex s →
  (lastIndex s ≤ currentIndex s + delta →
     currentIndex (stepReplay delta s) = lastIndex s) ∧
  (currentIndex s + delta ≤ 0 → currentIndex (stepReplay delta s) = 0) ∧
  (0 ≤ currentIndex s + delta ≤ lastIndex s →
     currentIndex (stepReplay delta s) = currentIndex s + delta ∧
     currentIndex (stepReplay (- delta) (stepReplay delta s)) = currentIndex s).
Proof.
  unfold lastIndex. intros Hlen Hin.
  rewrite stepReplay_currentIndex by done.
  split; [lia|]. split; [lia|]. intros Hd. split; [lia|].
  rewrite stepReplay_currentIndex by (by rewrite stepReplay_len).
  rewrite stepReplay_len, stepReplay_currentIndex by done. lia.
Qed.

Lemma stepReplay_clamps_and_returns_witness :
  currentIndex (stepReplay 5 (Sample.start Sample.two_votes)) = 2 ∧
  currentIndex (stepReplay (-5) (Sample.start Sample.two_votes)) = 0 ∧
  currentIndex (stepReplay (-2) (stepReplay 2 (Sample.start Sample.two_votes))) = 0.
Proof.
  destruct (stepReplay_clamps_and_returns 5 (Sample.start Sample.two_votes))
    as (Hhi & _); [discriminate | vm_compute; split; discriminate |].
  destruct (stepReplay_clamps_and_returns (-5) (Sample.start Sample.two_votes))
    as (_ & Hlo & _); [discriminate | vm_compute; split; discriminate |].
  destruct (stepReplay_clamps_and_returns 2 (Sample.start Sample.two_votes))
    as (_ & _ & Hback); [discriminate | vm_compute; split; discriminate |].
  split; [apply Hhi; vm_compute; discriminate|].
  split; [apply Hlo; vm_compute; discriminate|].
  apply Hback. vm_compute. split; discriminate.
Defined.

Lemma react_events (st : Stimulus) m m' :
  react st m = Some m' → events (state m') = events (state m).
Proof.
  intros Hr. destruct st; simpl in Hr.
  - injection Hr as <-. apply stepReplay_events.
  - injection Hr as <-. apply stepReplay_events.
  - injection Hr as <-. unfold toggleAutoPlay, autoPlayLoop.
    repeat case_match; simpl; try done. by rewrite stepReplay_events.
  - destruct (timers m); [done|]. injection Hr as <-. unfold autoPlayLoop.
    case_match; simpl; try done. by rewrite stepReplay_events.
Qed.

Lemma run_events (sts : list Stimulus) m m' :
  run sts m = Some m' → events (state m') = events (state m).
Proof.
  revert m. induction sts as [|st sts IH]; intros m Hrun; simpl in Hrun.
  - by injection Hrun as <-.
  - destruct (react st m) as [m1|] eqn:Hr; [|done].
    rewrite (IH _ Hrun). by eapply react_events.
Qed.

Lemma event_at_in_range (evs : list Event) (i : Z) :
  0 ≤ i ≤ Z.of_nat (length evs) - 1 → is_Some (event_at evs i).
Proof.
  intros Hi. unfold event_at.
  rewrite (proj2 (Z.ltb_ge i 0)) by lia.
  apply lookup_lt_is_Some_2. lia.
Qed.

(** X11.  In every state that the page reaches after [renderIArena], the
    timeline is the one that [parseEvents] built and the cursor is on one of
    its events: neither the guard of [stepReplay] for an empty timeline nor
    the guard of [updateReplayView] for a missing event is ever taken. *)
Theorem reachable_current_event (rawData : RawData) (s0 : ReplayState)
    (sts : list Stimulus) m :
  renderIArena rawData = Ok s0 → run sts (boot s0) = Some m →
  events (state m) = events s0 ∧ len (state m) ≠ 0 ∧
  ∃ e, event_at (events (state m)) (currentIndex (state m)) = Some e.
Proof.
  intros Hr Hrun. pose proof (run_in_range _ _ _ _ Hr Hrun) as Hin.
  split; [by apply run_events in Hrun|].
  unfold lastIndex, len in *. split; [lia|].
  by apply event_at_in_range.
Qed.

Lemma reachable_current_event_witness :
  ∃ m, run [ClickAuto; ClickPrev; TimerFires]
         (boot (Sample.start Sample.two_votes)) = Some m ∧
       events (state m) = events (Sample.start Sample.two_votes) ∧
       len (state m) ≠ 0 ∧
       ∃ e, event_at (events (state m)) (currentIndex (state m)) = Some e.
Proof.
  eexists. split; [reflexivity|].
  exact (reachable_current_event (Sample.raw Sample.two_votes)
           (Sample.start Sample.two_votes) [ClickAuto; ClickPrev; TimerFires] _
           eq_refl eq_refl).
Defined.

Lemma parseEvents_last_is_reveal (game : Game) (evs : list Event) :
  parseEvents game = Ok evs →
  ∃ r, last evs = Some r ∧ type r = REVEAL ∧ actor r = None.
Proof.
  intros Hpe. destruct (game_log game) as [gl|] eqn:Hgl.
  - rewrite (parseEvents_unfold _ _ Hgl) in Hpe. injection Hpe as <-.
    eexists. by rewrite last_snoc.
  - unfold parseEvents in Hpe. by rewrite Hgl in Hpe.
Qed.

Lemma event_at_last (evs : list Event) :
  event_at evs (Z.of_nat (length evs) - 1) = last evs.
Proof.
  destruct evs as [|e evs] using rev_ind; [done|].
  rewrite last_snoc, length_app. simpl. unfold event_at.
  rewrite (proj2 (Z.ltb_ge _ 0)) by lia.
  replace (Z.to_nat _) with (length evs) by lia.
  by rewrite list_lookup_middle.
Qed.

(** X12.  After [renderIArena], a move that arrives on the last index shows
    the REVEAL event and changes no score. *)
Theorem arriving_at_reveal (rawData : RawData) (s0 s : ReplayState) delta :
  renderIArena rawData = Ok s0 → events s = events s0 →
  currentIndex (stepReplay delta s) = lastIndex s →
  (∃ r, event_at (events s) (lastIndex s) = Some r ∧ type r = REVEAL) ∧
  suspicionScores (stepReplay delta s) = suspicionScores s.
Proof.
  intros (game & keys & evs & _ & _ & Hpe & ->)%renderIArena_inv Hevs Hidx.
  rewrite updateReplayView_events in Hevs. simpl in Hevs.
  destruct (parseEvents_last_is_reveal _ _ Hpe) as (r & Hlast & Hkind & Hactor).
  assert (event_at (events s) (lastIndex s) = Some r) as Hr.
  { unfold lastIndex, len. by rewrite event_at_last, Hevs. }
  split; [eauto|].
  destruct (decide (len s = 0)) as [Hlen|Hlen]; [by rewrite stepReplay_empty|].
  rewrite stepReplay_scores by done.
  rewrite stepReplay_currentIndex in Hidx by done. unfold lastIndex in Hr.
  fold (lastIndex s) in Hidx. unfold lastIndex in Hidx. rewrite Hidx, Hr.
  unfold suspicion_update. by rewrite Hactor.
Qed.

Lemma arriving_at_reveal_witness :
  (∃ r, event_at (events (Sample.start Sample.two_votes))
          (lastIndex (Sample.start Sample.two_votes)) = Some r ∧ type r = REVEAL) ∧
  suspicionScores (stepReplay 2 (Sample.start Sample.two_votes))
  = suspicionScores (Sample.start Sample.two_votes).
Proof.
  exact (arriving_at_reveal (Sample.raw Sample.two_votes)
           (Sample.start Sample.two_votes) (Sample.start Sample.two_votes) 2
           eq_refl eq_refl eq_refl).
Defined.

Lemma loop_cond_off s : autoPlay s = false → loop_cond s = false.
Proof. unfold loop_cond. by intros ->. Qed.

(** X13.  While autoPlay is off, the timers of the activations that are
    still waiting fire without effect: each one ends its activation and the
    state stays as it is.  No more timers can fire than activations are
    waiting. *)
Theorem paused_timers_are_inert m (n : nat) :
  autoPlay (state m) = false →
  run (replicate n TimerFires) m
  = if (n <=? timers m)%nat
    then Some {| state := state m; timers := timers m - n |}
    else None.
Proof.
  revert m. induction n as [|n IH]; intros m Hoff.
  - simpl. rewrite Nat.sub_0_r. by destruct m.
  - simpl replicate. simpl run. destruct (timers m) as [|k] eqn:Hk; [done|].
    rewrite autoPlayLoop_done by (by apply loop_cond_off).
    rewrite IH by done. simpl.
    by destruct (n <=? k)%nat.
Qed.

Lemma paused_timers_are_inert_witness :
  run [TimerFires]
    (toggleAutoPlay (toggleAutoPlay (boot (Sample.start Sample.two_votes))))
  = Some {| state := state (toggleAutoPlay (toggleAutoPlay
                        (boot (Sample.start Sample.two_votes))));
            timers := 0 |}.
Proof.
  exact (paused_timers_are_inert
           (toggleAutoPlay (toggleAutoPlay (boot (Sample.start Sample.two_votes))))
           1 eq_refl).
Defined.

(** X14.  A reaction of the page moves the cursor by one event at most;
    only the previous button moves it back, and the previous button never
    moves it forward. *)
Theorem cursor_moves_by_one (st : Stimulus) m m' :
  0 ≤ currentIndex (state m) ≤ lastIndex (state m) →
  react st m = Some m' →
  match st with
  | ClickPrev =>
      currentIndex (state m) - 1 ≤ currentIndex (state m') ≤ currentIndex (state m)
  | _ =>
      currentIndex (state m) ≤ currentIndex (state m') ≤ currentIndex (state m) + 1
  end.
Proof.
  unfold lastIndex. intros Hin Hr.
  assert (∀ d, -1 ≤ d ≤ 1 → ∀ s, 0 ≤ currentIndex s ≤ len s - 1 →
            currentIndex (stepReplay d s)
            = Z.max 0 (Z.min (len s - 1) (currentIndex s + d))) as Hstep.
  { intros d Hd s Hs. apply stepReplay_currentIndex. lia. }
  destruct st; simpl in Hr.
  - injection Hr as <-. simpl. rewrite Hstep by lia. lia.
  - injection Hr as <-. simpl. rewrite Hstep by lia. lia.
  - injection Hr as <-. simpl. unfold toggleAutoPlay, autoPlayLoop.
    repeat case_match; simpl; try lia.
    rewrite Hstep; simpl; unfold len in *; simpl; lia.
  - destruct (timers m); [done|]. injection Hr as <-. simpl.
    unfold autoPlayLoop. case_match; simpl; try lia.
    rewrite Hstep; simpl; lia.
Qed.

Lemma cursor_moves_by_one_witness :
  ∃ m', react ClickAuto (boot (Sample.start Sample.two_votes)) = Some m' ∧
        0 ≤ currentIndex (state m') ≤ 0 + 1.
Proof.
  eexists. split; [reflexivity|].
  exact (cursor_moves_by_one ClickAuto (boot (Sample.start Sample.two_votes)) _
           (conj (Z.le_refl 0) (Zle_bool_imp_le 0 2 eq_refl)) eq_refl).
Defined.

(** X21.  [toggleAutoPlay] never cancels an activation of the loop that is
    waiting for its timer: switching autoPlay off and on again below the
    last event starts one more activation beside those already waiting, and
    advances the cursor at once. *)
Theorem toggle_twice_adds_activation m :
  autoPlay (state m) = true →
  0 ≤ currentIndex (state m) → currentIndex (state m) < lastIndex (state m) →
  ∃ m', run [ClickAuto; ClickAuto] m = Some m' ∧
        autoPlay (state m') = true ∧
        timers m' = S (timers m) ∧
        currentIndex (state m') = currentIndex (state m) + 1.
Proof.
  intros Hon Hlo Hhi. simpl. unfold toggleAutoPlay at 2. rewrite Hon. simpl.
  unfold toggleAutoPlay. simpl.
  rewrite autoPlayLoop_step.
  - eexists. split; [done|]. simpl.
    rewrite stepReplay_autoPlay. split; [done|]. split; [done|].
    rewrite stepReplay_forward; simpl; done.
  - apply loop_cond_spec. simpl. done.
Qed.

Lemma toggle_twice_adds_activation_witness :
  ∃ m', run [ClickAuto; ClickAuto]
          (toggleAutoPlay (boot (Sample.start Sample.with_roles))) = Some m' ∧
        autoPlay (state m') = true ∧ timers m' = 2%nat ∧
        currentIndex (state m') = 1 + 1.
Proof.
  exact (toggle_twice_adds_activation
           (toggleAutoPlay (boot (Sample.start Sample.with_roles)))
           eq_refl (Zle_bool_imp_le 0 1 eq_refl) eq_refl).
Defined.

End controller_more.

(** * The replay link and the agent page *)

Section links.

Lemma replace_nil (pat rep : string) :
  replace "" pat rep
  = if startsWith "" pat then rep +:+ str_drop (String.length pat) "" else "".
Proof. by destruct pat. Qed.

Lemma replace_cons (c : ascii) (s pat rep : string) :
  replace (String c s) pat rep
  = if startsWith (String c s) pat
    then rep +:+ str_drop (String.length pat) (String c s)
    else String c (replace s pat rep).
Proof. by destruct pat. Qed.

Lemma replace_absent (s pat rep : string) :
  includes s pat = false → replace s pat rep = s.
Proof.
  induction s as [|c s IH].
  - rewrite includes_nil, replace_nil. by intros ->.
  - rewrite includes_cons, replace_cons. intros [Hs Hi]%orb_false_elim.
    rewrite Hs. by rewrite IH.
Qed.

(** The needle [.json] starts with the only dot it has, so it cannot begin
    inside a text and end inside a following [.json]. *)
Lemma startsWith_json_app (s : string) :
  s ≠ "" → startsWith (s +:+ ".json") ".json" = true →
  startsWith s ".json" = true.
Proof.
  intros Hne.
  destruct s as [|c1 [|c2 [|c3 [|c4 [|c5 s]]]]]; try done;
    rewrite ?app_cons_str; simpl;
    repeat (case_bool_decide; simpl; try done); subst;
    intros _; apply startsWith_nil.
Qed.

Lemma replace_json_suffix (base : string) :
  includes base ".json" = false → replace (base +:+ ".json") ".json" "" = base.
Proof.
  induction base as [|c base IH]; [done|].
  rewrite includes_cons. intros [Hs Hi]%orb_false_elim.
  rewrite app_cons_str.
  destruct (startsWith (String c (base +:+ ".json")) ".json") eqn:Hs'.
  - rewrite <- app_cons_str in Hs'. apply startsWith_json_app in Hs'; [|done].
    congruence.
  - rewrite replace_cons, Hs'. by rewrite IH.
Qed.

(** X15.  For a file name made of a base without [.json] followed by
    [.json], the run of the replay link is the base, and the endpoint that
    [renderIArena] fetches for that run is [results/] followed by the file
    name.  A file name without [.json] is its own run, so that the endpoint
    then has the extension added. *)
Theorem replay_link_round_trip (base : string) :
  includes base ".json" = false →
  run_of_filename (base +:+ ".json") = base ∧
  replay_href (base +:+ ".json") = "?run=" +:+ base ∧
  results_endpoint (run_of_filename (base +:+ ".json"))
  = "results/" +:+ base +:+ ".json" ∧
  fetch_url (results_endpoint (run_of_filename (base +:+ ".json")))
  = REPO_BASE +:+ "results/" +:+ base +:+ ".json" ∧
  run_of_filename base = base.
Proof.
  intros Hbase. unfold fetch_url, replay_href, results_endpoint, run_of_filename.
  rewrite replace_json_suffix by done.
  repeat split. by apply replace_absent.
Qed.

Lemma replay_link_round_trip_witness :
  run_of_filename "game_0042.json" = "game_0042" ∧
  replay_href "game_0042.json" = "?run=game_0042" ∧
  results_endpoint (run_of_filename "game_0042.json") = "results/game_0042.json" ∧
  fetch_url (results_endpoint (run_of_filename "game_0042.json"))
  = REPO_BASE +:+ "results/game_0042.json" ∧
  run_of_filename "game_0042" = "game_0042".
Proof.
  exact (replay_link_round_trip "game_0042" eq_refl).
Defined.





End links.

(** * The page of the replay *)

Section page.

Implicit Types (s : ReplayState) (pg : Page) (v : ReplayState * Page)
  (p : string) (keys : list string).

Lemma foldl_insert_lookup {A} (x : A) keys p :
  foldl (λ m k, <[k := x]> m) (∅ : gmap string A) keys !! p
  = if decide (p ∈ keys) then Some x else None.
Proof.
  induction keys as [|k keys IH] using rev_ind.
  - simpl. rewrite lookup_empty.
    destruct (decide (p ∈ [])) as [Hin|]; [|done]. by apply elem_of_nil in Hin.
  - rewrite foldl_snoc, lookup_insert, IH.
    destruct (decide (k = p)) as [->|Hk].
    + rewrite decide_True; [done|].
      apply elem_of_app. right. by apply list_elem_of_singleton.
    + destruct (decide (p ∈ keys)) as [Hin|Hnin].
      * rewrite decide_True; [done|]. apply elem_of_app. by left.
      * rewrite decide_False; [done|]. rewrite elem_of_app, list_elem_of_singleton.
        intros [?|?]; [done | by subst].
Qed.

Lemma bars_fold_lookup (scores : gmap string Z) (bs : gmap string Bar) p :
  map_fold (λ q score bs',
              match bs' !! q with
              | Some _ => <[q := show_bar score]> bs'
              | None => bs'
              end) bs scores !! p
  = match bs !! p with
    | Some b => Some (match scores !! p with
                      | Some val => show_bar val
                      | None => b
                      end)
    | None => None
    end.
Proof.
  revert p. apply (map_fold_weak_ind (λ r m, ∀ p, r !! p = match bs !! p with
    | Some b => Some (match m !! p with Some val => show_bar val | None => b end)
    | None => None end)).
  - intros p. rewrite lookup_empty. by destruct (bs !! p).
  - intros i x m r Hi IH p. destruct (decide (i = p)) as [->|Hne].
    + rewrite lookup_insert_eq. pose proof (IH p) as Hp. rewrite Hi in Hp.
      destruct (bs !! p) as [b|]; rewrite Hp; [by rewrite lookup_insert_eq | done].
    + rewrite (lookup_insert_ne m) by done. rewrite <- IH.
      destruct (r !! i); [by rewrite lookup_insert_ne | done].
Qed.

Lemma reveal_fold_lookup (rs : gmap string string) (ns : gmap string Node) p :
  map_fold (λ pName role ns', alter (node_reveal role) pName ns') ns rs !! p
  = match rs !! p with
    | Some role => node_reveal role <$> ns !! p
    | None => ns !! p
    end.
Proof.
  revert p. apply (map_fold_weak_ind (λ r m, ∀ p, r !! p = match m !! p with
    | Some role => node_reveal role <$> ns !! p | None => ns !! p end)).
  - intros p. by rewrite lookup_empty.
  - intros i x m r Hi IH p. destruct (decide (i = p)) as [->|Hne].
    + rewrite lookup_alter_eq, lookup_insert_eq, IH. by rewrite Hi.
    + rewrite lookup_alter_ne, lookup_insert_ne by done. apply IH.
Qed.

Lemma refresh_page_nodes s pg (e : Event) p :
  event_at (events s) (currentIndex s) = Some e →
  nodes (refresh_page s pg) !! p
  = (λ n, reveal_of e p (acted e p n)) <$> nodes pg !! p.
Proof.
  intros He. unfold refresh_page. rewrite He. simpl.
  assert (match actor e with
          | Some a =>
              if truthy (actor e)
              then alter (node_act (isElimination e)) a (node_rest <$> nodes pg)
              else node_rest <$> nodes pg
          | None => node_rest <$> nodes pg
          end !! p = acted e p <$> nodes pg !! p) as Hacted.
  { unfold acted. destruct (actor e) as [a|] eqn:Ha.
    - destruct (truthy (Some a)) eqn:Ht.
      + destruct (decide (a = p)) as [->|Hne].
        * rewrite lookup_alter_eq, lookup_fmap, bool_decide_eq_true_2 by done.
          simpl. by destruct (nodes pg !! p).
        * rewrite lookup_alter_ne, lookup_fmap by done.
          rewrite bool_decide_eq_false_2 by congruence. done.
      + rewrite lookup_fmap, andb_false_r. done.
    - rewrite lookup_fmap. done. }
  unfold reveal_of. case_bool_decide.
  - destruct (roles e) as [rs|].
    + rewrite reveal_fold_lookup, Hacted.
      destruct (rs !! p); by destruct (nodes pg !! p).
    + rewrite Hacted. by destruct (nodes pg !! p).
  - rewrite Hacted. by destruct (nodes pg !! p).
Qed.

Lemma refresh_page_bars s pg (e : Event) p :
  event_at (events s) (currentIndex s) = Some e →
  bars (refresh_page s pg) !! p
  = match bars pg !! p with
    | Some b => Some (match suspicionScores (updateReplayView s) !! p with
                      | Some val => show_bar val
                      | None => b
                      end)
    | None => None
    end.
Proof.
  intros He. rewrite updateReplayView_scores, He.
  unfold refresh_page. rewrite He. simpl. apply bars_fold_lookup.
Qed.

Lemma refresh_page_texts s pg (e : Event) :
  event_at (events s) (currentIndex s) = Some e →
  meta_text (refresh_page s pg) = meta e ∧
  actor_name (refresh_page s pg) = or_else (actor e) "SYSTEM".
Proof. intros He. unfold refresh_page. by rewrite He. Qed.

Lemma suspicion_update_is_Some (scores : gmap string Z) (e : Event) p :
  is_Some (scores !! p) → is_Some (suspicion_update scores e !! p).
Proof.
  intros Hp. unfold suspicion_update.
  destruct (actor e) as [a|]; [|done].
  destruct (truthy _), (suspicious e); try done.
  rewrite lookup_insert. by case_decide.
Qed.

Lemma updateReplayView_page_fresh v :
  is_Some (event_at (events v.1) (currentIndex v.1)) →
  page_fresh (updateReplayView_page v).
Proof.
  destruct v as [s pg]. simpl. intros [e He]. exists e. simpl.
  rewrite updateReplayView_events, updateReplayView_currentIndex.
  split; [done|].
  destruct (refresh_page_texts s pg e He) as [-> ->].
  split; [done|]. split; [done|]. split.
  - intros p n. rewrite (refresh_page_nodes _ _ _ _ He).
    destruct (nodes pg !! p) as [n0|]; [|done]. simpl. intros [= <-].
    assert (active (reveal_of e p (acted e p n0)) = active (acted e p n0) ∧
            glitch (reveal_of e p (acted e p n0)) = glitch (acted e p n0))
      as [-> ->].
    { unfold reveal_of. case_bool_decide; [|done].
      destruct (roles e) as [rs|]; [|done]. by destruct (rs !! p). }
    unfold acted. destruct (bool_decide (actor e = Some p)) eqn:Hact.
    + apply bool_decide_eq_true in Hact. rewrite Hact.
      destruct p as [|c p]; simpl.
      * split; split; try done; [intros [_ ?] | intros (_ & ? & _)]; done.
      * split; [by split|]. split; [by intros -> | by intros (_ & _ & ->)].
    + apply bool_decide_eq_false in Hact. simpl.
      split; split; try done; intros [? _]; done.
  - split; [|split].
    + intros p b val. rewrite (refresh_page_bars _ _ _ _ He).
      destruct (bars pg !! p) as [b0|]; [|done]. intros [= <-] Hval.
      by rewrite Hval.
    + intros p n. rewrite (refresh_page_nodes _ _ _ _ He).
      destruct (nodes pg !! p) as [n0|]; [|done]. simpl. intros [= <-] Ha Hp Hel.
      assert (eliminated (reveal_of e p (acted e p n0))
              = eliminated (acted e p n0)) as ->.
      { unfold reveal_of. case_bool_decide; [|done].
        destruct (roles e) as [rs|]; [|done]. by destruct (rs !! p). }
      unfold acted. rewrite bool_decide_eq_true_2, Ha by done.
      apply truthy_Some in Hp as ->. simpl. rewrite Hel. apply orb_true_r.
    + intros p n rs role. rewrite (refresh_page_nodes _ _ _ _ He).
      destruct (nodes pg !! p) as [n0|]; [|done]. simpl.
      intros [= <-] Hkind Hroles Hrole. unfold reveal_of.
      by rewrite bool_decide_eq_true_2, Hroles, Hrole.
Qed.

Lemma updateReplayView_page_ok keys v :
  page_ok keys v → page_ok keys (updateReplayView_page v).
Proof.
  destruct v as [s pg]. unfold page_ok, lastIndex, len. simpl.
  intros (Hlen & Hin & Hsc & Hnodes & Hbars).
  rewrite updateReplayView_events, updateReplayView_currentIndex.
  destruct (event_at_in_range (events s) (currentIndex s) Hin) as [e He].
  split; [done|]. split; [done|]. split; [|split].
  - intros p Hp. rewrite updateReplayView_scores, He.
    by apply suspicion_update_is_Some, Hsc.
  - intros p. rewrite (refresh_page_nodes _ _ _ _ He), <- Hnodes.
    by rewrite fmap_is_Some.
  - intros p. rewrite (refresh_page_bars _ _ _ _ He), <- Hbars.
    destruct (bars pg !! p); split; intros [? ?]; done || eauto.
Qed.

Lemma stepReplay_page_unfold delta v :
  len v.1 ≠ 0 →
  stepReplay_page delta v
  = updateReplayView_page
      (set_currentIndex
         (Z.max 0 (Z.min (len v.1 - 1) (currentIndex v.1 + delta))) v.1, v.2).
Proof. intros Hlen. unfold stepReplay_page. by rewrite bool_decide_eq_false_2. Qed.

Lemma stepReplay_page_fst delta v : (stepReplay_page delta v).1 = stepReplay delta v.1.
Proof.
  unfold stepReplay_page, stepReplay. by case_bool_decide.
Qed.

Lemma navigate_page_fst (deltas : list Z) v :
  (navigate_page deltas v).1 = navigate deltas v.1.
Proof.
  revert v. induction deltas as [|d ds IH]; intros v; [done|].
  simpl. rewrite IH. by rewrite stepReplay_page_fst.
Qed.

Lemma stepReplay_page_ok keys delta v :
  page_ok keys v →
  page_ok keys (stepReplay_page delta v) ∧ page_fresh (stepReplay_page delta v).
Proof.
  intros Hok. pose proof Hok as (Hlen & Hin & Hsc & Hnodes & Hbars).
  rewrite stepReplay_page_unfold by done.
  assert (page_ok keys
            (set_currentIndex
               (Z.max 0 (Z.min (len v.1 - 1) (currentIndex v.1 + delta))) v.1,
             v.2)) as Hok'.
  { unfold page_ok, lastIndex, len in *. simpl. repeat split; try done; try lia;
      try apply Hnodes; try apply Hbars. }
  split; [by apply updateReplayView_page_ok|].
  apply updateReplayView_page_fresh. simpl.
  destruct Hok' as (_ & Hin' & _). by apply event_at_in_range.
Qed.

Lemma navigate_page_ok keys (deltas : list Z) v :
  page_ok keys v → page_fresh v →
  page_ok keys (navigate_page deltas v) ∧ page_fresh (navigate_page deltas v).
Proof.
  revert v. induction deltas as [|d ds IH]; intros v Hok Hfresh; [done|].
  simpl. destruct (stepReplay_page_ok keys d v Hok). by apply IH.
Qed.

Lemma renderIArena_page_inv (rawData : RawData) pg v0 :
  renderIArena_page rawData pg = Ok v0 →
  ∃ game keys evs,
    participants rawData = Some keys ∧ parseEvents game = Ok evs ∧
    v0 = updateReplayView_page
           ({| events := evs; currentIndex := 0; autoPlay := false;
               suspicionScores := seed_scores keys |},
            initIarenaUI (Some keys) pg).
Proof.
  unfold renderIArena_page. intros Hr.
  destruct (results rawData) as [rs|]; [|done]. simpl in Hr.
  destruct (head rs) as [game|]; [|done]. simpl in Hr.
  destruct (parseEvents game) as [evs|] eqn:Hpe; [|done]. simpl in Hr.
  destruct (participants rawData) as [keys|]; [|done]. simpl in Hr.
  injection Hr as <-. by exists game, keys, evs.
Qed.

Lemma renderIArena_page_ok (rawData : RawData) pg v0 :
  renderIArena_page rawData pg = Ok v0 →
  ∃ keys, participants rawData = Some keys ∧ page_ok keys v0 ∧ page_fresh v0.
Proof.
  intros (game & keys & evs & Hkeys & Hpe & ->)%renderIArena_page_inv.
  apply parseEvents_nonempty in Hpe.
  exists keys. split; [done|].
  assert (page_ok keys
            ({| events := evs; currentIndex := 0; autoPlay := false;
                suspicionScores := seed_scores keys |},
             initIarenaUI (Some keys) pg)) as Hok.
  { unfold page_ok, lastIndex, len. simpl.
    assert (length evs ≠ 0%nat) by (by destruct evs).
    split; [lia|]. split; [lia|]. split; [|split].
    - intros p Hp. rewrite seed_scores_lookup, decide_True by done. eauto.
    - intros p. rewrite foldl_insert_lookup.
      destruct (decide (p ∈ keys)); split; try done; eauto; by intros [? ?].
    - intros p. rewrite foldl_insert_lookup.
      destruct (decide (p ∈ keys)); split; try done; eauto; by intros [? ?]. }
  split; [by apply updateReplayView_page_ok|].
  apply updateReplayView_page_fresh. simpl.
  destruct Hok as (_ & Hin & _). by apply event_at_in_range.
Qed.




(** X18.  After [renderIArena] and any sequence of moves, the page shows the
    event under the cursor: its meta line, its actor or SYSTEM, and, among
    the nodes, the node of the actor as the only active one; a node glitches
    only while active and on an elimination. *)
Theorem page_shows_current_event (rawData : RawData) pg v0 (deltas : list Z) :
  renderIArena_page rawData pg = Ok v0 →
  ∃ e, event_at (events (navigate_page deltas v0).1)
         (currentIndex (navigate_page deltas v0).1) = Some e ∧
       meta_text (navigate_page deltas v0).2 = meta e ∧
       actor_name (navigate_page deltas v0).2 = or_else (actor e) "SYSTEM" ∧
       ∀ p n, nodes (navigate_page deltas v0).2 !! p = Some n →
         (active n = true ↔ actor e = Some p ∧ p ≠ "") ∧
         (glitch n = true ↔ actor e = Some p ∧ p ≠ "" ∧ isElimination e = true).
Proof.
  intros Hr.
  destruct (renderIArena_page_ok _ _ _ Hr) as (keys & Hkeys & Hok & Hfresh).
  destruct (navigate_page_ok keys deltas v0 Hok Hfresh)
    as (_ & (e & He & Hmeta & Hname & Hnodes & _)).
  by exists e.
Qed.

Lemma page_shows_current_event_witness :
  ∃ v0,
    renderIArena_page (Sample.raw Sample.two_votes) Sample.blank = Ok v0 ∧
    ∃ e, event_at (events (navigate_page [1; 1] v0).1)
           (currentIndex (navigate_page [1; 1] v0).1) = Some e ∧
         meta_text (navigate_page [1; 1] v0).2 = meta e ∧
         actor_name (navigate_page [1; 1] v0).2 = or_else (actor e) "SYSTEM" ∧
         ∀ p n, nodes (navigate_page [1; 1] v0).2 !! p = Some n →
           (active n = true ↔ actor e = Some p ∧ p ≠ "") ∧
           (glitch n = true ↔ actor e = Some p ∧ p ≠ "" ∧ isElimination e = true).
Proof.
  eexists. split; [reflexivity|].
  exact (page_shows_current_event (Sample.raw Sample.two_votes) Sample.blank
           _ [1; 1] eq_refl).
Defined.

Lemma reveal_of_eliminated (e : Event) p (n : Node) :
  eliminated (reveal_of e p n) = eliminated n.
Proof.
  unfold reveal_of. case_bool_decide; [|done].
  destruct (roles e) as [rs|]; [|done]. by destruct (rs !! p).
Qed.

Lemma refresh_page_keeps_eliminated s pg p (n : Node) :
  nodes pg !! p = Some n → eliminated n = true →
  ∃ n', nodes (refresh_page s pg) !! p = Some n' ∧ eliminated n' = true.
Proof.
  intros Hn Hel. destruct (event_at (events s) (currentIndex s)) as [e|] eqn:He.
  - rewrite (refresh_page_nodes _ _ _ _ He), Hn. simpl.
    eexists. split; [done|]. rewrite reveal_of_eliminated. unfold acted.
    destruct (_ && _); simpl; by rewrite Hel.
  - unfold refresh_page. rewrite He. eauto.
Qed.

Lemma stepReplay_page_keeps_eliminated delta v p (n : Node) :
  nodes v.2 !! p = Some n → eliminated n = true →
  ∃ n', nodes (stepReplay_page delta v).2 !! p = Some n' ∧ eliminated n' = true.
Proof.
  intros Hn Hel. unfold stepReplay_page. case_bool_decide; [eauto|].
  by apply (refresh_page_keeps_eliminated _ _ _ n).
Qed.

Lemma navigate_page_keeps_eliminated (deltas : list Z) v p (n : Node) :
  nodes v.2 !! p = Some n → eliminated n = true →
  ∃ n', nodes (navigate_page deltas v).2 !! p = Some n' ∧ eliminated n' = true.
Proof.
  revert v n. induction deltas as [|d ds IH]; intros v n Hn Hel; [eauto|].
  destruct (stepReplay_page_keeps_eliminated d v p n Hn Hel) as (n1 & Hn1 & Hel1).
  by apply (IH _ n1).
Qed.

(** X19.  Once the cursor has been on the elimination of a participant, the
    node of that participant keeps the class eliminated whatever moves
    follow, also when the cursor goes back before the elimination. *)
Theorem eliminations_stay (rawData : RawData) pg v0 (ds1 ds2 : list Z)
    (e : Event) p (n : Node) :
  renderIArena_page rawData pg = Ok v0 →
  event_at (events (navigate_page ds1 v0).1)
    (currentIndex (navigate_page ds1 v0).1) = Some e →
  isElimination e = true → actor e = Some p → p ≠ "" →
  nodes (navigate_page ds2 (navigate_page ds1 v0)).2 !! p = Some n →
  eliminated n = true.
Proof.
  intros Hr He Hel Ha Hp Hn.
  destruct (renderIArena_page_ok _ _ _ Hr) as (keys & Hkeys & Hok & Hfresh).
  destruct (navigate_page_ok keys ds1 v0 Hok Hfresh) as (Hok1 & Hfresh1).
  destruct (navigate_page_ok keys ds2 _ Hok1 Hfresh1) as (Hok2 & _).
  destruct Hok1 as (_ & _ & _ & Hnodes1 & _).
  destruct Hok2 as (_ & _ & _ & Hnodes2 & _).
  destruct (proj2 (Hnodes1 p)) as [n1 Hn1]; [apply Hnodes2; eauto|].
  destruct Hfresh1 as (e' & He' & _ & _ & _ & _ & Helim & _).
  rewrite He in He'. injection He' as <-.
  destruct (navigate_page_keeps_eliminated ds2 _ p n1 Hn1) as (n' & Hn' & Hel').
  - by apply (Helim p).
  - rewrite Hn in Hn'. by injection Hn' as ->.
Qed.

Lemma eliminations_stay_witness :
  ∃ v0,
    renderIArena_page
      {| results := Some [Sample.old_archive];
         participants := Some ["P1"; "Ghost"] |} Sample.blank = Ok v0 ∧
    currentIndex (navigate_page [-1] (navigate_page [1] v0)).1 = 0 ∧
    eliminated <$> nodes (navigate_page [-1] (navigate_page [1] v0)).2 !! "Ghost"
    = Some true.
Proof.
  eexists. split; [reflexivity|]. split; [reflexivity|].
  destruct (nodes (navigate_page [-1] (navigate_page [1] _)).2 !! "Ghost")
    as [n|] eqn:Hn; [|vm_compute in Hn; discriminate].
  simpl. f_equal.
  eapply (eliminations_stay
            {| results := Some [Sample.old_archive];
               participants := Some ["P1"; "Ghost"] |} Sample.blank
            _ [1] [-1] (exile_event Sample.exile_Ghost) "Ghost" n);
    [reflexivity | reflexivity | reflexivity | reflexivity | discriminate |
     exact Hn].
Defined.

Lemma reveal_unique (game : Game) (evs : list Event) (e e' : Event) :
  parseEvents game = Ok evs →
  e ∈ evs → e' ∈ evs → type e = REVEAL → type e' = REVEAL → e = e'.
Proof.
  intros Hpe. destruct (game_log game) as [gl|] eqn:Hgl.
  - rewrite (parseEvents_inv _ _ _ Hgl Hpe).
    pose proof (body_events_not_reveal gl game) as Hbody.
    rewrite Forall_forall in Hbody.
    rewrite !elem_of_app, !list_elem_of_singleton.
    intros [He | ->] [He' | ->] Hk Hk'; try done.
    + by apply Hbody in He.
    + by apply Hbody in He.
    + by apply Hbody in He'.
  - unfold parseEvents in Hpe. by rewrite Hgl in Hpe.
Qed.

Lemma event_at_elem_of (evs : list Event) (i : Z) (e : Event) :
  event_at evs i = Some e → e ∈ evs.
Proof.
  unfold event_at. destruct (i <? 0); [done|]. apply list_elem_of_lookup_2.
Qed.

Lemma refresh_page_keeps_revealed s pg p (n : Node)
    (rs : gmap string string) (role : string) :
  (∀ e, event_at (events s) (currentIndex s) = Some e → type e = REVEAL →
        roles e = Some rs) →
  rs !! p = Some role →
  nodes pg !! p = Some n →
  revealed n = Some (toUpperCase role, bool_decide (role = "werewolf")) →
  ∃ n', nodes (refresh_page s pg) !! p = Some n' ∧
        revealed n' = Some (toUpperCase role, bool_decide (role = "werewolf")).
Proof.
  intros Hrev Hrole Hn Hx.
  destruct (event_at (events s) (currentIndex s)) as [e|] eqn:He.
  - rewrite (refresh_page_nodes _ _ _ _ He), Hn. simpl.
    eexists. split; [done|]. unfold reveal_of.
    destruct (bool_decide (type e = REVEAL)) eqn:Hk.
    + apply bool_decide_eq_true in Hk. rewrite (Hrev e eq_refl Hk), Hrole. done.
    + unfold acted. by destruct (_ && _).
  - unfold refresh_page. rewrite He. eauto.
Qed.

Lemma navigate_page_keeps_revealed (deltas : list Z) v p (n : Node)
    (rs : gmap string string) (role : string) :
  (∀ e, e ∈ events v.1 → type e = REVEAL → roles e = Some rs) →
  rs !! p = Some role →
  nodes v.2 !! p = Some n →
  revealed n = Some (toUpperCase role, bool_decide (role = "werewolf")) →
  ∃ n', nodes (navigate_page deltas v).2 !! p = Some n' ∧
        revealed n' = Some (toUpperCase role, bool_decide (role = "werewolf")).
Proof.
  intros Hrev Hrole. revert v n Hrev.
  induction deltas as [|d ds IH]; intros v n Hrev Hn Hx; [eauto|].
  simpl.
  assert (∃ n1, nodes (stepReplay_page d v).2 !! p = Some n1 ∧
            revealed n1 = Some (toUpperCase role, bool_decide (role = "werewolf")))
    as (n1 & Hn1 & Hx1).
  { unfold stepReplay_page. destruct (bool_decide (len v.1 = 0)); [eauto|].
    apply (refresh_page_keeps_revealed _ _ _ n rs); try done.
    simpl. intros e He. apply Hrev. by apply event_at_elem_of in He. }
  apply (IH _ n1); try done.
  rewrite stepReplay_page_fst, stepReplay_events. done.
Qed.

(** X20.  Once the cursor has been on the REVEAL event, the node of every
    participant that has a role there carries that role in upper case, with
    the colour of the werewolves exactly for the role werewolf, and keeps it
    whatever moves follow. *)
Theorem revealed_roles_stay (rawData : RawData) pg v0 (ds1 ds2 : list Z)
    (e : Event) (rs : gmap string string) p (role : string) (n : Node) :
  renderIArena_page rawData pg = Ok v0 →
  event_at (events (navigate_page ds1 v0).1)
    (currentIndex (navigate_page ds1 v0).1) = Some e →
  type e = REVEAL → roles e = Some rs → rs !! p = Some role →
  nodes (navigate_page ds2 (navigate_page ds1 v0)).2 !! p = Some n →
  revealed n = Some (toUpperCase role, bool_decide (role = "werewolf")).
Proof.
  intros Hr He Hk Hroles Hrole Hn.
  destruct (renderIArena_page_ok _ _ _ Hr) as (keys & Hkeys & Hok & Hfresh).
  destruct (navigate_page_ok keys ds1 v0 Hok Hfresh) as (Hok1 & Hfresh1).
  destruct (navigate_page_ok keys ds2 _ Hok1 Hfresh1) as (Hok2 & _).
  destruct Hok1 as (_ & _ & _ & Hnodes1 & _).
  destruct Hok2 as (_ & _ & _ & Hnodes2 & _).
  destruct (proj2 (Hnodes1 p)) as [n1 Hn1]; [apply Hnodes2; eauto|].
  destruct Hfresh1 as (e' & He' & _ & _ & _ & _ & _ & Hreveal).
  rewrite He in He'. injection He' as <-.
  apply renderIArena_page_inv in Hr as (game & keys' & evs & _ & Hpe & Hv0).
  assert (events (navigate_page ds1 v0).1 = evs) as Hevs.
  { rewrite navigate_page_fst. unfold navigate.
    assert (events v0.1 = evs) as <-
      by (rewrite Hv0; simpl; apply updateReplayView_events).
    generalize v0.1. clear. induction ds1 as [|d ds IH]; intros s; [done|].
    simpl. rewrite IH. apply stepReplay_events. }
  destruct (navigate_page_keeps_revealed ds2 (navigate_page ds1 v0) p n1 rs role)
    as (n' & Hn' & Hx'); try done.
  - intros e' He' Hk'. rewrite Hevs in He'.
    rewrite <- (reveal_unique game evs e e' Hpe); try done.
    rewrite <- Hevs. by apply event_at_elem_of in He.
  - by apply (Hreveal p n1 rs role).
  - rewrite Hn in Hn'. by injection Hn' as ->.
Qed.

Lemma revealed_roles_stay_witness :
  ∃ v0,
    renderIArena_page (Sample.raw Sample.with_roles) Sample.blank = Ok v0 ∧
    currentIndex (navigate_page [-3] (navigate_page [3] v0)).1 = 0 ∧
    revealed <$> nodes (navigate_page [-3] (navigate_page [3] v0)).2 !! "P1"
    = Some (Some ("WEREWOLF", true)).
Proof.
  eexists. split; [reflexivity|]. split; [reflexivity|].
  destruct (nodes (navigate_page [-3] (navigate_page [3] _)).2 !! "P1")
    as [n|] eqn:Hn; [|vm_compute in Hn; discriminate].
  simpl. f_equal.
  eapply (revealed_roles_stay (Sample.raw Sample.with_roles) Sample.blank
            _ [3] [-3] (reveal_event Sample.with_roles (Some Sample.cast))
            Sample.cast "P1" "werewolf" n);
    [reflexivity | reflexivity | reflexivity | reflexivity | reflexivity |
     exact Hn].
Defined.

End page.
